(** * The X-Ray object exporter ([io_scene_xray/obj/exp/main.py])

    A shallow embedding of the object exporter of the blender-xray add-on
    and the properties of the binary object it writes.

    The exporter walks a scene hierarchy, collects mesh writers, armatures
    and materials, and then emits a fixed sequence of chunks into a
    [ChunkedWriter] owned by the caller.  Python objects are compared by
    identity; the embedding gives every datablock an integer identity.
    The two collections built with [set()] iterate in the order of the
    entries of their hash tables.  The entry a datablock lies in derives from
    its address in the running process and from the collisions met when it
    was inserted, not from the scene: the assignment of entries is a
    component of the host environment. *)

From Stdlib Require Import ZArith List Lia Permutation Sorted Bool.
From Stdlib Require Import Init.Byte Strings.Ascii Strings.String.
From stdpp Require Import base option list gmap strings.
Import ListNotations.

Local Open Scope Z_scope.
Set Warnings "-register-all".

(** ** Bytes and the packed writer *)

Module Bytes.

Definition byte_of_Z (z : Z) : byte :=
  match Byte.of_N (Z.to_N (Z.land z 255)) with
  | Some b => b
  | None => x00
  end.

(** [n] little-endian bytes of [v]; a value outside the width keeps its
    low [8 * n] bits (two's complement for the negative ones). *)
Fixpoint le_bytes (n : nat) (v : Z) : list byte :=
  match n with
  | O => []
  | S k => byte_of_Z v :: le_bytes k (Z.shiftr v 8)
  end.

Definition of_string (s : string) : list byte := list_byte_of_string s.

End Bytes.

(** Modelled from the spec: [xray_io.PackedWriter] is not among the sources.
    The spec describes an append-only byte buffer whose writes have a fixed
    little-endian layout, cannot fail and return the writer for chaining;
    [puts] writes the bytes of the string and one zero terminator.  A string
    is taken as the sequence of its encoded bytes.  A float is carried as
    its 32-bit IEEE pattern, which is what ['f'] writes. *)
Module PackedWriter.

Definition t := list byte.

Definition new : t := [].

Definition putf_H (v : Z) (w : t) : t := w ++ Bytes.le_bytes 2 v.
Definition putf_I (v : Z) (w : t) : t := w ++ Bytes.le_bytes 4 v.
Definition putf_f (v : Z) (w : t) : t := w ++ Bytes.le_bytes 4 v.
Definition putf_fff (v : Z * Z * Z) (w : t) : t :=
  let '(a, b, c) := v in putf_f c (putf_f b (putf_f a w)).
Definition puts (s : string) (w : t) : t := w ++ Bytes.of_string s ++ [x00].

End PackedWriter.

(** ** Chunk identifiers and the chunked writer *)

(** The constants of [fmt.Chunks.Object] used by the exporter, and the
    sequential indices of the mesh and bone sub-chunks. *)
Inductive ChunkId :=
| VERSION | FLAGS | MESHES | SURFACES2 | BONES1 | USERDATA | LOD_REF
| MOTIONS | PARTITIONS1 | MOTION_REFS | SMOTIONS3 | TRANSFORM | REVISION
| Idx (n : nat).

(** Modelled from the spec: [xray_io.ChunkedWriter] is not among the sources.
    A chunked buffer is the ordered sequence of its (id, payload) pairs; a
    payload is a packed buffer or a nested chunked buffer. *)
Inductive Payload :=
| Packed (data : list byte)
| Chunked (chunks : list (ChunkId * Payload)).

Definition Chunk : Type := ChunkId * Payload.

Module ChunkedWriter.

Definition t := list Chunk.

Definition new : t := [].

Definition put (cid : ChunkId) (p : Payload) (w : t) : t := w ++ [(cid, p)].

(** The bytes of a buffer for a numbering [code] of the identifiers: per
    chunk the id, the payload length and the payload. *)
Fixpoint data (code : ChunkId -> Z) (p : Payload) : list byte :=
  match p with
  | Packed d => d
  | Chunked cs =>
      (fix go (cs : list (ChunkId * Payload)) : list byte :=
         match cs with
         | [] => []
         | (cid, q) :: rest =>
             Bytes.le_bytes 4 (code cid)
               ++ Bytes.le_bytes 4 (Z.of_nat (length (data code q)))
               ++ data code q ++ go rest
         end) cs
  end.

End ChunkedWriter.

(** ** The scene as the exporter reads it *)

(** A float vector and a 4x4 matrix of [mathutils], by rows. *)
Definition Vec3 : Type := Z * Z * Z.
Definition Vec4 : Type := Z * Z * Z * Z.

Record Matrix := mkMatrix { row0 : Vec4; row1 : Vec4; row2 : Vec4; row3 : Vec4 }.

#[global] Instance Matrix_eq_dec : EqDecision Matrix.
Proof. solve_decision. Defined.

(** [1.0] and [0.0] as single-precision patterns. *)
Definition f_one : Z := 0x3F800000.
Definition f_zero : Z := 0.

(** [mathutils.Matrix.Identity(4)] *)
Definition Identity4 : Matrix :=
  {| row0 := (f_one, f_zero, f_zero, f_zero);
     row1 := (f_zero, f_one, f_zero, f_zero);
     row2 := (f_zero, f_zero, f_one, f_zero);
     row3 := (f_zero, f_zero, f_zero, f_one) |}.

(** [Matrix.to_translation()]: the first three entries of the last column. *)
Definition to_translation (m : Matrix) : Vec3 :=
  let '(_, _, _, x) := row0 m in
  let '(_, _, _, y) := row1 m in
  let '(_, _, _, z) := row2 m in
  (x, y, z).

(** The comparison of [mathutils] ([mathutils.c] of Blender).  [m1 == m2]
    compares the sixteen entries pairwise with [EXPP_FloatsAreEqual] and one
    step: two floats are equal when their patterns, read as integers in the
    order of the floats, are at most one apart, that is within one unit in
    the last place.  The arithmetic is that of 32-bit two's complement
    integers. *)
Module Mathutils.

Definition int32 (v : Z) : Z :=
  let r := v mod 2 ^ 32 in
  if r <? 2 ^ 31 then r else r - 2 ^ 32.

Definition signmask (i : Z) : Z := if i <? 0 then -1 else 0.

Definition floats_are_equal (af bf : Z) (max_diff : Z) : bool :=
  let ai := int32 af in
  let bi := int32 bf in
  let test := signmask (Z.lxor ai bi) in
  let diff := int32 (Z.lxor ai (Z.land test 0x7fffffff) - bi) in
  let v1 := int32 (max_diff + diff) in
  let v2 := int32 (max_diff - diff) in
  0 <=? Z.lor v1 v2.

Definition vectors_are_equal (vec_a vec_b : list Z) (float_steps : Z) : bool :=
  forallb (fun p => floats_are_equal p.1 p.2 float_steps) (combine vec_a vec_b).

Definition row_entries (r : Vec4) : list Z :=
  let '(a, b, c, d) := r in [a; b; c; d].

Definition entries (m : Matrix) : list Z :=
  row_entries (row0 m) ++ row_entries (row1 m) ++ row_entries (row2 m)
    ++ row_entries (row3 m).

(** [m1 == m2] and [m1 != m2] for two 4x4 matrices *)
Definition matrix_eq (m1 m2 : Matrix) : bool :=
  vectors_are_equal (entries m1) (entries m2) 1.

Definition matrix_ne (m1 m2 : Matrix) : bool := negb (matrix_eq m1 m2).

End Mathutils.

Record Texture := mkTexture { tex_name : string; tex_filepath : string }.

Record TextureSlot := mkSlot { uv_layer : string }.

(** [XRayMaterialProperties] of [props/material.py]. *)
Record XRayMaterial := mkXRayMaterial {
  mflags : Z;
  eshader : string;
  cshader : string;
  gamemtl : string;
  mversion : Z
}.

(** A material datablock.  [mat_id] is its identity; [mat_xray] is absent when
    [hasattr(material, 'xray')] is false. *)
Record Material := mkMaterial {
  mat_id : nat;
  mat_name : string;
  mat_xray : option XRayMaterial;
  active_texture : option Texture;
  texture_slots : list (option TextureSlot);
  active_texture_index : nat
}.

(** A bone of an armature: [is_exportable] is [utils.is_exportable_bone];
    [bone_chunks] is what the bone encoder [bone.export_bone] writes for it. *)
Record Bone := mkBone {
  bone_name : string;
  is_exportable : bool;
  bone_chunks : list Chunk
}.

(** A pose bone; [bone_group] is the position of its group in
    [pose.bone_groups], when it has one. *)
Record PoseBone := mkPoseBone {
  pbone_name : string;
  bone_group : option nat
}.

(** An object of type ['ARMATURE']: [arm_bones] is [data.bones],
    [pose_bones] is [pose.bones] and [bone_groups] holds the names of
    [pose.bone_groups]. *)
Record ArmObj := mkArmObj {
  arm_id : nat;
  arm_bones : list Bone;
  pose_bones : list PoseBone;
  bone_groups : list string
}.

(** A modifier: only an armature modifier's target is read. *)
Inductive Modifier :=
| ArmatureMod (object : option ArmObj)
| OtherMod.

(** What a ['MESH'] object supplies: the result of the mesh encoder
    [mesh.export_mesh] on it (the chunks it writes and the material names
    its faces use), its modifiers and its material slots. *)
Record MeshObj := mkMeshObj {
  mesh_chunks : list Chunk;
  used_material_names : list string;
  modifiers : list Modifier;
  materials : list (option Material)
}.

Inductive ObjKind :=
| KMesh (m : MeshObj)
| KArmature (a : ArmObj)
| KOther.

Record Revision := mkRevision { owner : string; ctime : Z }.

(** [bpy_obj.xray]: the extension data of an object. *)
Record XRayObject := mkXRayObject {
  flags : Z;
  userdata : string;
  lodref : string;
  motions_collection : list string;
  motionrefs_collection : list string;
  motionrefs : string;
  revision : Revision
}.

(** A scene object with the objects below it.  [is_helper] is
    [utils.is_helper_object]; [xray] is absent when the object has no
    [xray] attribute. *)
Inductive Object :=
| mkObject (is_helper : bool) (kind : ObjKind) (xray : option XRayObject)
           (matrix_world : Matrix) (children : list Object).

Definition is_helper_object (o : Object) : bool :=
  let '(mkObject h _ _ _ _) := o in h.
Definition kind (o : Object) : ObjKind :=
  let '(mkObject _ k _ _ _) := o in k.
Definition xray (o : Object) : option XRayObject :=
  let '(mkObject _ _ x _ _) := o in x.
Definition matrix_world (o : Object) : Matrix :=
  let '(mkObject _ _ _ m _) := o in m.
Definition children (o : Object) : list Object :=
  let '(mkObject _ _ _ _ c) := o in c.

(** The export context (the recognised options). *)
Record Context := mkContext {
  export_motions_flag : bool;
  texname_from_path : bool;
  textures_folder : string;
  soc_sgroups : bool
}.

Record Action := mkAction { act_name : string }.

(** Everything the exporter reads from outside its arguments. *)
Record Host := mkHost {
  node : string;                                         (* platform.node() *)
  user : string;                                         (* getpass.getuser() *)
  now : Z;                                               (* int(time.time()) *)
  actions : list (string * Action);                      (* bpy.data.actions *)
  motions_data : list Action -> ArmObj -> list byte;     (* xray_motions.export_motions *)
  gen_texture_name : Texture -> string -> string;        (* utils.gen_texture_name *)
  matrix_ne : Matrix -> Matrix -> bool;                  (* mathutils: m1 != m2 *)
  to_euler : Matrix -> string -> Vec3;                   (* Matrix.to_euler(order) *)
  slot : nat -> nat                    (* index of the table entry of a datablock *)
}.

(** ** Python sets of datablocks *)

(** A [set()] of datablocks.  Membership is by identity.  The elements are
    kept in insertion order.  Iteration scans the entries of the hash table
    by increasing index: [slot] gives the index of the entry an element lies
    in when the set is iterated, after the probing that follows a collision
    of hashes.  An entry holds one element, so the elements of a set have
    distinct slots ([slots_distinct] below); what [iter] gives for two
    elements with one slot corresponds to no run of the program, and the
    statements about the place of an element in the order assume distinct
    slots. *)
Module PySet.
Section PySet.
Local Open Scope nat_scope.
Context {A : Type} (ident : A -> nat).

Definition t := list A.

Definition empty : t := [].

Definition mem (x : A) (s : t) : bool :=
  existsb (fun y => ident y =? ident x) s.

Definition add (x : A) (s : t) : t :=
  if mem x s then s else s ++ [x].

Definition len (s : t) : nat := length s.

Fixpoint place (slot : nat -> nat) (x : A) (l : list A) : list A :=
  match l with
  | [] => [x]
  | y :: r =>
      if slot (ident x) <=? slot (ident y) then x :: y :: r
      else y :: place slot x r
  end.

(** [for x in s] and [list(s)] *)
Fixpoint iter (slot : nat -> nat) (s : t) : list A :=
  match s with
  | [] => []
  | x :: r => place slot x (iter slot r)
  end.

End PySet.
End PySet.

(** ** Writer state, warnings and exceptions *)

Inductive Error :=
| AttributeError (attr : string)
| KeyError (key : string)
| IndexError.

Inductive outcome (A : Type) :=
| Ok (a : A)
| Raise (e : Error).
Arguments Ok {A} a.
Arguments Raise {A} e.

(** The caller's [chunked_writer] and the warnings given to [log.warn]. *)
Record St := mkSt {
  chunked_writer : ChunkedWriter.t;
  warnings : list (string * string)
}.

(** A computation changes the state and returns or raises; what was written
    before an exception stays written. *)
Definition M (A : Type) : Type := St -> St * outcome A.

Definition ret {A} (a : A) : M A := fun st => (st, Ok a).

Definition raise {A} (e : Error) : M A := fun st => (st, Raise e).

Definition bind {A B} (m : M A) (k : A -> M B) : M B :=
  fun st =>
    match m st with
    | (st', Ok a) => k a st'
    | (st', Raise e) => (st', Raise e)
    end.

Definition lift {A} (o : outcome A) : M A := fun st => (st, o).

Notation "'let*' x ':=' m 'in' k" := (bind m (fun x => k))
  (at level 10, x pattern, m at level 100, k at level 200).

(** [chunked_writer.put(cid, writer)] *)
Definition put (cid : ChunkId) (p : Payload) : M unit :=
  fun st =>
    ({| chunked_writer := ChunkedWriter.put cid p (chunked_writer st);
        warnings := warnings st |}, Ok tt).

(** [log.warn(message, data=...)] *)
Definition warn (message data : string) : M unit :=
  fun st =>
    ({| chunked_writer := chunked_writer st;
        warnings := warnings st ++ [(message, data)] |}, Ok tt).

Definition obind {A B} (o : outcome A) (k : A -> outcome B) : outcome B :=
  match o with
  | Ok a => k a
  | Raise e => Raise e
  end.

(** ** The exporter *)

(** [pw_v3f]: the second and third components swapped. *)
Definition pw_v3f (vec : Vec3) : Vec3 :=
  let '(v0, v1, v2) := vec in (v0, v2, v1).

(** [export_version]: the format version as an unsigned 16-bit value. *)
Definition export_version : M unit :=
  put VERSION (Packed (PackedWriter.putf_H 0x10 PackedWriter.new)).

(** [export_flags]: the flags of the object, 0 when [xray] is [None]. *)
Definition export_flags (xray : option XRayObject) : M unit :=
  put FLAGS
    (Packed (PackedWriter.putf_I
               (match xray with Some x => flags x | None => 0 end)
               PackedWriter.new)).

(** The collections [scan_r] fills. *)
Record Scan := mkScan {
  mesh_writers : list (list Chunk);
  armatures : PySet.t (A := ArmObj);
  materials_set : PySet.t (A := Material)
}.

(** The loop of [scan_r] over the modifiers of a mesh. *)
Definition scan_modifiers (ms : list Modifier) (arms : list ArmObj) : list ArmObj :=
  fold_left
    (fun arms modifier =>
       match modifier with
       | ArmatureMod (Some object) => PySet.add arm_id object arms
       | _ => arms
       end) ms arms.

(** The loop of [scan_r] over the material slots of a mesh. *)
Definition scan_materials (used : list string) (slots : list (option Material))
    (mats : list Material) : list Material :=
  fold_left
    (fun mats material =>
       match material with
       | None => mats
       | Some material =>
           if bool_decide (mat_name material ∈ used)
           then PySet.add mat_id material mats
           else mats
       end) slots mats.

(** [scan_r], the closure of [export_meshes] that fills the three
    collections, the collections passed along. *)
Fixpoint scan_r (bpy_obj : Object) (acc : Scan) : Scan :=
  match bpy_obj with
  | mkObject helper k _ _ cs =>
      if helper then acc
      else
        let acc :=
          match k with
          | KMesh m =>
              {| mesh_writers := mesh_writers acc ++ [mesh_chunks m];
                 armatures := scan_modifiers (modifiers m) (armatures acc);
                 materials_set :=
                   scan_materials (used_material_names m) (materials m)
                     (materials_set acc) |}
          | KArmature a =>
              {| mesh_writers := mesh_writers acc;
                 armatures := PySet.add arm_id a (armatures acc);
                 materials_set := materials_set acc |}
          | KOther => acc
          end in
        fold_left (fun acc child => scan_r child acc) cs acc
  end.

(** Modelled from the spec: the bone encoder [bone.export_bone] is not among
    the sources.  Per the spec it appends the writer of the bone to the
    caller's list and records the bone in the name-to-index bone map. *)
Definition export_bone (bone_ : Bone)
    (st : list (list Chunk) * gmap string nat) : list (list Chunk) * gmap string nat :=
  let '(bone_writers, bonemap) := st in
  (bone_writers ++ [bone_chunks bone_],
   <[bone_name bone_ := length bone_writers]> bonemap).

(** The body of the loop over the armatures: a fresh bone map, and the
    exportable bones of the armature handed to the bone encoder. *)
Definition export_arm_bones (bpy_arm_obj : ArmObj) (bone_writers : list (list Chunk))
    : list (list Chunk) * gmap string nat :=
  fold_left
    (fun st bone_ => if is_exportable bone_ then export_bone bone_ st else st)
    (arm_bones bpy_arm_obj) (bone_writers, ∅).

(** A list of writers as sequentially indexed sub-chunks. *)
Definition indexed (writers : list (list Chunk)) : list Chunk :=
  imap (fun idx w => (Idx idx, Chunked w)) writers.

(** [export_meshes]: the walk, the bone writers of the armatures in the
    iteration order of the set, the [MESHES] chunk, and the first element
    of [list(armatures)] as [some_arm]. *)
Definition export_meshes (h : Host) (bpy_obj : Object)
    : M (PySet.t (A := Material) * list (list Chunk) * option ArmObj * Object) :=
  let sc := scan_r bpy_obj (mkScan [] PySet.empty PySet.empty) in
  let bone_writers :=
    fold_left (fun bone_writers bpy_arm_obj =>
                 fst (export_arm_bones bpy_arm_obj bone_writers))
      (PySet.iter arm_id (slot h) (armatures sc)) [] in
  let* _ := put MESHES (Chunked (indexed (mesh_writers sc))) in
  let arm_list := PySet.iter arm_id (slot h) (armatures sc) in
  let some_arm := head arm_list in
  ret (materials_set sc, bone_writers, some_arm, bpy_obj).

(** One iteration of the loop of [export_surfaces]: the entry of a material
    appended to [sfw]. *)
Definition surface_entry (h : Host) (context : Context) (material : Material)
    (sfw : PackedWriter.t) : outcome PackedWriter.t :=
  let sfw := PackedWriter.puts (mat_name material) sfw in
  let sfw :=
    match mat_xray material with
    | Some x =>
        PackedWriter.puts (gamemtl x)
          (PackedWriter.puts (cshader x) (PackedWriter.puts (eshader x) sfw))
    | None =>
        PackedWriter.puts EmptyString
          (PackedWriter.puts EmptyString (PackedWriter.puts EmptyString sfw))
    end in
  let tx_name :=
    match active_texture material with
    | Some texture =>
        if texname_from_path context
        then gen_texture_name h texture (textures_folder context)
        else tex_name texture
    | None => EmptyString
    end in
  let sfw := PackedWriter.puts tx_name sfw in
  match texture_slots material !! active_texture_index material with
  | None => Raise IndexError
  | Some slot_ =>
      let sfw :=
        PackedWriter.puts
          (match slot_ with Some sl => uv_layer sl | None => EmptyString end) sfw in
      let sfw :=
        PackedWriter.putf_I
          (match mat_xray material with Some x => mflags x | None => 0 end) sfw in
      Ok (PackedWriter.putf_I 1 (PackedWriter.putf_I 0x112 sfw))
  end.

(** The loop of [export_surfaces]; an exception ends it. *)
Fixpoint surface_entries (h : Host) (context : Context) (ms : list Material)
    (sfw : PackedWriter.t) : outcome PackedWriter.t :=
  match ms with
  | [] => Ok sfw
  | material :: rest =>
      obind (surface_entry h context material sfw)
        (surface_entries h context rest)
  end.

(** [export_surfaces]: the count, the entries in the iteration order of the
    set, and the chunk put once the loop is through. *)
Definition export_surfaces (h : Host) (context : Context)
    (materials : PySet.t (A := Material)) : M unit :=
  let sfw := PackedWriter.putf_I (Z.of_nat (PySet.len materials)) PackedWriter.new in
  let* sfw :=
    lift (surface_entries h context (PySet.iter mat_id (slot h) materials) sfw) in
  put SURFACES2 (Packed sfw).

(** [export_bones]: written only when there are bone writers. *)
Definition export_bones (bone_writers : list (list Chunk)) : M unit :=
  match bone_writers with
  | [] => ret tt
  | _ => put BONES1 (Chunked (indexed bone_writers))
  end.

(** The attribute read [xray.<attr>] on an [xray] that may be [None]. *)
Definition attr_of {A} (xray : option XRayObject) (attr : string)
    (get : XRayObject -> A) : M A :=
  match xray with
  | Some x => ret (get x)
  | None => raise (AttributeError attr)
  end.

(** The truth value of a string. *)
Definition nonempty (s : string) : bool :=
  match s with EmptyString => false | _ => true end.

(** [str.splitlines()] on a string of ASCII characters, where a character,
    its code point and its encoded byte are one: the line boundaries are
    LF, VT, FF, CR, FS, GS and RS, a carriage return followed by a line feed
    counting once.  Python splits a string by code points and has three
    more boundaries, U+0085, U+2028 and U+2029; none is an ASCII character,
    and in a string with other characters a byte stands for no code point.
    The statements about the lines are for user data of ASCII characters
    ([ascii_text] below). *)
Definition is_linebreak (c : ascii) : bool :=
  let n := nat_of_ascii c in
  bool_decide (n ∈ [10; 11; 12; 13; 28; 29; 30]%nat).

Fixpoint splitlines_from (s : string) (cur : string) (after_cr : bool) : list string :=
  match s with
  | EmptyString => if nonempty cur then [cur] else []
  | String c rest =>
      if after_cr && bool_decide (nat_of_ascii c = 10%nat)
      then splitlines_from rest cur false
      else if is_linebreak c
      then cur :: splitlines_from rest EmptyString (bool_decide (nat_of_ascii c = 13%nat))
      else splitlines_from rest (cur +:+ String c EmptyString) false
  end.

Definition splitlines (s : string) : list string :=
  splitlines_from s EmptyString false.

Definition crlf : string :=
  String (ascii_of_nat 13) (String (ascii_of_nat 10) EmptyString).

(** [export_user_data]: the lines of the user data joined by CR LF. *)
Definition export_user_data (xray : option XRayObject) : M unit :=
  let* ud := attr_of xray "userdata" userdata in
  if nonempty ud
  then put USERDATA
         (Packed (PackedWriter.puts (String.concat crlf (splitlines ud))
                    PackedWriter.new))
  else ret tt.

(** [export_loddef] *)
Definition export_loddef (xray : option XRayObject) : M unit :=
  let* lr := attr_of xray "lodref" lodref in
  if nonempty lr
  then put LOD_REF (Packed (PackedWriter.puts lr PackedWriter.new))
  else ret tt.

(** [sorted(set(names))]: the distinct names in increasing order. *)
Fixpoint insert_name (x : string) (l : list string) : list string :=
  match l with
  | [] => [x]
  | y :: r =>
      if String.eqb x y then l
      else if String.ltb x y then x :: l
      else y :: insert_name x r
  end.

Definition sorted_names (names : list string) : list string :=
  fold_right insert_name [] names.

(** [bpy.data.actions[name]] *)
Fixpoint lookup_action (registry : list (string * Action)) (name : string)
    : outcome Action :=
  match registry with
  | [] => Raise (KeyError name)
  | (n, a) :: rest => if String.eqb n name then Ok a else lookup_action rest name
  end.

(** A list comprehension over a lookup that may raise. *)
Fixpoint lookup_all {A B} (f : A -> outcome B) (l : list A) : outcome (list B) :=
  match l with
  | [] => Ok []
  | x :: r => obind (f x) (fun y => obind (lookup_all f r) (fun ys => Ok (y :: ys)))
  end.

(** [export_motions]: the actions named by the motions of the object,
    sorted and without duplicates, given to the motion encoder with
    [some_arm]; the chunk is put when the encoder wrote something. *)
Definition export_motions (h : Host) (some_arm : option ArmObj) (context : Context)
    (bpy_obj : Object) : M unit :=
  match some_arm with
  | Some arm =>
      if export_motions_flag context then
        let* names := attr_of (xray bpy_obj) "xray" motions_collection in
        let acts := sorted_names names in
        let* acts := lift (lookup_all (lookup_action (actions h)) acts) in
        let writer_data := motions_data h acts arm in
        match writer_data with
        | [] => ret tt
        | _ => put MOTIONS (Packed writer_data)
        end
      else ret tt
  | None => ret tt
  end.

(** [some_arm.data.bones[name]] *)
Fixpoint lookup_bone (bones : list Bone) (name : string) : outcome Bone :=
  match bones with
  | [] => Raise (KeyError name)
  | b :: rest => if String.eqb (bone_name b) name then Ok b else lookup_bone rest name
  end.

(** The pose bones whose data bone is exportable. *)
Fixpoint exportable_bones (bones : list Bone) (pbones : list PoseBone)
    : outcome (list PoseBone) :=
  match pbones with
  | [] => Ok []
  | bone_ :: rest =>
      obind (lookup_bone bones (pbone_name bone_))
        (fun b =>
           obind (exportable_bones bones rest)
             (fun r => Ok (if is_exportable b then bone_ :: r else r)))
  end.

(** The names of the exportable pose bones of the group at a position. *)
Definition group_bones (exportable : list PoseBone) (group : nat) : list string :=
  map pbone_name
    (filter (fun bone_ => bone_group bone_ = Some group) exportable).

(** [non_empty_groups] of [export_partitions]. *)
Definition non_empty_groups (arm : ArmObj) : outcome (list (string * list string)) :=
  obind (exportable_bones (arm_bones arm) (pose_bones arm))
    (fun exportable =>
       let all_groups :=
         imap (fun group name => (name, group_bones exportable group))
           (bone_groups arm) in
       Ok (filter (fun group => group.2 ≠ []) all_groups)).

(** The loop of [export_partitions] over the non-empty groups. *)
Definition partition_entry (w : PackedWriter.t) (group : string * list string)
    : PackedWriter.t :=
  let '(name, bones) := group in
  let w := PackedWriter.puts name w in
  let w := PackedWriter.putf_I (Z.of_nat (length bones)) w in
  fold_left (fun w bone_ => PackedWriter.puts bone_ w) bones w.

(** [export_partitions] *)
Definition export_partitions (some_arm : option ArmObj) : M unit :=
  match some_arm with
  | Some arm =>
      match bone_groups arm with
      | [] => ret tt
      | _ =>
          let* groups := lift (non_empty_groups arm) in
          match groups with
          | [] => ret tt
          | _ =>
              let writer :=
                PackedWriter.putf_I (Z.of_nat (length groups)) PackedWriter.new in
              put PARTITIONS1 (Packed (fold_left partition_entry groups writer))
          end
      end
  | None => ret tt
  end.

(** [export_motion_refs] *)
Definition export_motion_refs (xray : option XRayObject) (context : Context) : M unit :=
  let* x := attr_of xray "motionrefs_collection" (fun x => x) in
  let refs_collection := motionrefs_collection x in
  match refs_collection with
  | _ :: _ =>
      let* _ :=
        (if nonempty (motionrefs x)
         then warn "MotionRefs: skipped legacy data" (motionrefs x)
         else ret tt) in
      if soc_sgroups context then
        let refs := String.concat "," refs_collection in
        put MOTION_REFS (Packed (PackedWriter.puts refs PackedWriter.new))
      else
        let writer :=
          PackedWriter.putf_I (Z.of_nat (length refs_collection)) PackedWriter.new in
        put SMOTIONS3
          (Packed (fold_left (fun w ref => PackedWriter.puts ref w) refs_collection writer))
  | [] =>
      if nonempty (motionrefs x)
      then put MOTION_REFS
             (Packed (PackedWriter.puts (motionrefs x) PackedWriter.new))
      else ret tt
  end.

(** [export_transform] *)
Definition export_transform (h : Host) (bpy_root : Object) : M unit :=
  let root_matrix := matrix_world bpy_root in
  if matrix_ne h root_matrix Identity4 then
    let writer := PackedWriter.putf_fff (pw_v3f (to_translation root_matrix))
                    PackedWriter.new in
    let writer := PackedWriter.putf_fff (pw_v3f (to_euler h root_matrix "YXZ")) writer in
    put TRANSFORM (Packed writer)
  else ret tt.

(** ['\\\\{}\\{}'.format(platform.node(), getpass.getuser())] *)
Definition curruser (h : Host) : string :=
  "\\" +:+ node h +:+ "\" +:+ user h.

(** The four values [export_revision] writes, by its two branches. *)
Definition revision_record (h : Host) (rev : Revision) : string * Z * string * Z :=
  let currtime := now h in
  if negb (nonempty (owner rev)) || String.eqb (owner rev) (curruser h) then
    (curruser h, (if ctime rev =? 0 then currtime else ctime rev), EmptyString, 0)
  else
    (owner rev, ctime rev, curruser h, currtime).

(** [export_revision]: the record written as string, time, string, time. *)
Definition export_revision (h : Host) (xray : option XRayObject) : M unit :=
  let* rev := attr_of xray "revision" revision in
  let '(owner1, time1, owner2, time2) := revision_record h rev in
  let writer :=
    PackedWriter.putf_I time2
      (PackedWriter.puts owner2
         (PackedWriter.putf_I time1
            (PackedWriter.puts owner1 PackedWriter.new))) in
  put REVISION (Packed writer).

(** [export_main]: the sections in their fixed order. *)
Definition export_main (h : Host) (bpy_obj : Object) (context : Context) : M unit :=
  let xray := xray bpy_obj in
  let* _ := export_version in
  let* _ := export_flags xray in
  let* collected := export_meshes h bpy_obj in
  let '(materials, bone_writers, some_arm, bpy_root) := collected in
  let* _ := export_surfaces h context materials in
  let* _ := export_bones bone_writers in
  let* _ := export_user_data xray in
  let* _ := export_loddef xray in
  let* _ := export_motions h some_arm context bpy_obj in
  let* _ := export_partitions some_arm in
  let* _ := export_motion_refs xray context in
  let* _ := export_transform h bpy_root in
  export_revision h xray.

(** ** Vocabulary of the statements *)

(** The state after the chunks [cs] and the warnings [ws] were added. *)
Definition emit (st : St) (cs : list Chunk) (ws : list (string * string)) : St :=
  {| chunked_writer := chunked_writer st ++ cs; warnings := warnings st ++ ws |}.

(** The bytes [puts] adds for a string. *)
Definition cstr (s : string) : list byte := Bytes.of_string s ++ [x00].

(** The bytes of an unsigned 32-bit value. *)
Definition u32 (v : Z) : list byte := Bytes.le_bytes 4 v.

(** The first pair of a revision record. *)
Definition rec_owner (r : string * Z * string * Z) : string := r.1.1.1.
Definition rec_ctime (r : string * Z * string * Z) : Z := r.1.1.2.

(** ** Sample hosts and scenes *)

Module Sample.

(** A host with user [\\pc\bob], the clock at [now_], no actions, a motion
    encoder that writes the identity of the armature, raw texture names,
    the exact matrix comparison and the given slot assignment. *)
Definition host (now_ : Z) (slot_ : nat -> nat) : Host :=
  {| node := "pc"; user := "bob"; now := now_;
     actions := [];
     motions_data := fun _ arm => u32 (Z.of_nat (arm_id arm));
     gen_texture_name := fun t _ => tex_filepath t;
     matrix_ne := fun a b => negb (bool_decide (a = b));
     to_euler := fun _ _ => (f_zero, f_zero, f_zero);
     slot := slot_ |}.

Definition context : Context :=
  {| export_motions_flag := true; texname_from_path := false;
     textures_folder := EmptyString; soc_sgroups := false |}.

Definition st0 : St := mkSt [] [].

(** Extension data that was never edited. *)
Definition fresh_xray : XRayObject :=
  {| flags := 0; userdata := EmptyString; lodref := EmptyString;
     motions_collection := []; motionrefs_collection := [];
     motionrefs := EmptyString; revision := mkRevision EmptyString 0 |}.

Definition with_revision (r : Revision) : XRayObject :=
  {| flags := 0; userdata := EmptyString; lodref := EmptyString;
     motions_collection := []; motionrefs_collection := [];
     motionrefs := EmptyString; revision := r |}.

(** Both the collection and the legacy string of motion references set. *)
Definition both_refs : XRayObject :=
  {| flags := 0; userdata := EmptyString; lodref := EmptyString;
     motions_collection := []; motionrefs_collection := ["run"; "walk"]%string;
     motionrefs := "old"; revision := mkRevision EmptyString 0 |}.

End Sample.

(** ** Vocabulary of the walk *)

(** What [scan_r] collects from a root. *)
Definition collected (bpy_obj : Object) : Scan :=
  scan_r bpy_obj (mkScan [] PySet.empty PySet.empty).

(** The bone writers filled by the loop over the collected armatures. *)
Definition collected_bone_writers (h : Host) (sc : Scan) : list (list Chunk) :=
  fold_left (fun bone_writers bpy_arm_obj =>
               fst (export_arm_bones bpy_arm_obj bone_writers))
    (PySet.iter arm_id (slot h) (armatures sc)) [].

(** The armature [export_meshes] returns. *)
Definition chosen_armature (h : Host) (sc : Scan) : option ArmObj :=
  head (PySet.iter arm_id (slot h) (armatures sc)).

(** The index of the active texture is an index of the slots of the
    material (Blender keeps it so). *)
Definition valid_slot (m : Material) : Prop :=
  (active_texture_index m < length (texture_slots m))%nat.

(** The chunks every export starts with, for flags [f]. *)
Definition head_chunks (f : Z) (sc : Scan) : list Chunk :=
  [(VERSION, Packed [x10; x00]);
   (FLAGS, Packed (u32 f));
   (MESHES, Chunked (indexed (mesh_writers sc)))].

(** The [BONES1] chunk, when there are bone writers. *)
Definition bones_chunk (bone_writers : list (list Chunk)) : list Chunk :=
  match bone_writers with
  | [] => []
  | _ => [(BONES1, Chunked (indexed bone_writers))]
  end.

(** Induction over a hierarchy, the children of an object included. *)
Fixpoint Object_ind' (P : Object -> Prop)
    (step : forall h k x m cs, Forall P cs -> P (mkObject h k x m cs))
    (o : Object) : P o :=
  match o with
  | mkObject h k x m cs =>
      step h k x m cs
        ((fix all (l : list Object) : Forall P l :=
            match l with
            | [] => List.Forall_nil P
            | c :: r => List.Forall_cons P c r (Object_ind' P step c) (all r)
            end) cs)
  end.

Module SampleScene.

(** An empty hierarchy: an object and a child, neither mesh nor
    armature. *)
Definition empty_root (x : option XRayObject) : Object :=
  mkObject false KOther x Identity4 [mkObject false KOther None Identity4 []].

End SampleScene.

(** ** Vocabulary of the transform *)

(** The comparison of the host has the tolerance of [mathutils]: it reports
    no difference between two matrices that are equal within one unit in
    the last place of every entry. *)
Definition compares_within_ulp (h : Host) : Prop :=
  forall m1 m2, Mathutils.matrix_eq m1 m2 = true -> matrix_ne h m1 m2 = false.

Module SampleTransform.

(** The sample host with the comparison of [mathutils]. *)
Definition host : Host :=
  {| node := "pc"; user := "bob"; now := 0;
     actions := [];
     motions_data := fun _ arm => u32 (Z.of_nat (arm_id arm));
     gen_texture_name := fun t _ => tex_filepath t;
     matrix_ne := Mathutils.matrix_ne;
     to_euler := fun _ _ => (f_zero, f_zero, f_zero);
     slot := fun i => i |}.

(** The float next above [1.0], and [2.0]. *)
Definition f_one_up : Z := 0x3F800001.
Definition f_two : Z := 0x40000000.

(** The identity but for the first entry, one unit in the last place
    above [1.0]. *)
Definition near_identity : Matrix :=
  {| row0 := (f_one_up, f_zero, f_zero, f_zero);
     row1 := (f_zero, f_one, f_zero, f_zero);
     row2 := (f_zero, f_zero, f_one, f_zero);
     row3 := (f_zero, f_zero, f_zero, f_one) |}.

(** The translation by 2 along x. *)
Definition moved : Matrix :=
  {| row0 := (f_one, f_zero, f_zero, f_two);
     row1 := (f_zero, f_one, f_zero, f_zero);
     row2 := (f_zero, f_zero, f_one, f_zero);
     row3 := (f_zero, f_zero, f_zero, f_one) |}.

Definition root (m : Matrix) : Object :=
  mkObject false KOther (Some Sample.fresh_xray) m [].

End SampleTransform.

(** Two slot assignments that order the elements of a set the same way give
    the same iteration. *)
Definition same_order {A} (ident : A -> nat) (slot1 slot2 : nat -> nat)
    (s : list A) : Prop :=
  forall a b, In a s -> In b s ->
    (slot1 (ident a) <=? slot1 (ident b))%nat = (slot2 (ident a) <=? slot2 (ident b))%nat.


(** The elements of a set lie in entries of their own. *)
Definition slots_distinct {A} (ident : A -> nat) (slot : nat -> nat)
    (s : list A) : Prop :=
  forall a b, In a s -> In b s ->
    slot (ident a) = slot (ident b) -> ident a = ident b.

(** Iteration goes by increasing slot. *)
Definition by_slot {A} (ident : A -> nat) (slot : nat -> nat) (a b : A) : Prop :=
  (slot (ident a) <= slot (ident b))%nat.

(** ** Vocabulary of the surfaces *)

Definition shader_bytes (m : Material) : list byte :=
  match mat_xray m with
  | Some x => cstr (eshader x) ++ cstr (cshader x) ++ cstr (gamemtl x)
  | None => cstr EmptyString ++ cstr EmptyString ++ cstr EmptyString
  end.

Definition material_flags (m : Material) : Z :=
  match mat_xray m with Some x => mflags x | None => 0 end.

(** The entry of a material with texture name [tx] and UV-layer name [uv]. *)
Definition entry_of (m : Material) (tx uv : string) : list byte :=
  cstr (mat_name m) ++ shader_bytes m ++ cstr tx ++ cstr uv
    ++ u32 (material_flags m) ++ u32 0x112 ++ u32 1.

Definition texture_name_of (h : Host) (context : Context) (m : Material) : string :=
  match active_texture m with
  | Some texture =>
      if texname_from_path context
      then gen_texture_name h texture (textures_folder context)
      else tex_name texture
  | None => EmptyString
  end.

Definition uv_of (slot_ : option TextureSlot) : string :=
  match slot_ with Some sl => uv_layer sl | None => EmptyString end.

(** The slot at the active texture index; an empty slot when the index is
    out of range (where [surface_entry] raises). *)
Definition active_slot (m : Material) : option TextureSlot :=
  match texture_slots m !! active_texture_index m with
  | Some slot_ => slot_
  | None => None
  end.

Module SampleMaterial.

(** A material with no active texture whose active slot exists and names
    a UV layer. *)
Definition bare_slot : Material :=
  {| mat_id := 1; mat_name := "m"; mat_xray := None; active_texture := None;
     texture_slots := [Some (mkSlot "UVMap")]; active_texture_index := 0 |}.

(** A material with no active texture and an empty active slot. *)
Definition no_slot : Material :=
  {| mat_id := 2; mat_name := "n"; mat_xray := None; active_texture := None;
     texture_slots := [None]; active_texture_index := 0 |}.

End SampleMaterial.

(** ** Vocabulary of the collection *)

(** The objects the walk visits, in the order it visits them: depth first,
    children in their stored order, helpers and what is below them left
    out. *)
Fixpoint visited (o : Object) : list Object :=
  match o with
  | mkObject helper _ _ _ cs =>
      if helper then [] else o :: flat_map visited cs
  end.

(** The armatures a mesh offers to the set: the targets of its armature
    modifiers. *)
Definition modifier_targets (ms : list Modifier) : list ArmObj :=
  flat_map (fun modifier =>
              match modifier with
              | ArmatureMod (Some object) => [object]
              | _ => []
              end) ms.

(** The materials a mesh offers to the set: those of its slots that are not
    empty and whose name is among the used names. *)
Definition offered_materials (m : MeshObj) : list Material :=
  flat_map (fun material =>
              match material with
              | Some material =>
                  if bool_decide (mat_name material ∈ used_material_names m)
                  then [material] else []
              | None => []
              end) (materials m).

Definition node_writers (o : Object) : list (list Chunk) :=
  match kind o with KMesh m => [mesh_chunks m] | _ => [] end.

Definition node_armatures (o : Object) : list ArmObj :=
  match kind o with
  | KMesh m => modifier_targets (modifiers m)
  | KArmature a => [a]
  | KOther => []
  end.

Definition node_materials (o : Object) : list Material :=
  match kind o with KMesh m => offered_materials m | _ => [] end.

(** The armatures in the order the walk encounters them. *)
Definition encountered (o : Object) : list ArmObj :=
  flat_map node_armatures (visited o).

(** The elements of [l] added to a set one after the other. *)
Definition add_all {A} (ident : A -> nat) (l : list A) (s : list A) : list A :=
  fold_left (fun s x => PySet.add ident x s) l s.

(** The entry of a material as [export_surfaces] writes it. *)
Definition surface_bytes (h : Host) (context : Context) (m : Material) : list byte :=
  entry_of m (texture_name_of h context m) (uv_of (active_slot m)).

(** A material is attached to a visited mesh. *)
Definition attached (bpy_obj : Object) (m : Material) (me : MeshObj) : Prop :=
  exists o, In o (visited bpy_obj) /\ kind o = KMesh me /\ In (Some m) (materials me).

Module SampleMesh.

Definition mat (i : nat) (name : string) : Material :=
  {| mat_id := i; mat_name := name; mat_xray := None; active_texture := None;
     texture_slots := [None]; active_texture_index := 0 |}.

Definition mat_a : Material := mat 1 "a".
Definition mat_b : Material := mat 2 "b".
Definition mat_c : Material := mat 3 "c".

(** A mesh with three material slots and an empty one; its faces use the
    materials [a] and [b] only. *)
Definition mesh : MeshObj :=
  {| mesh_chunks := []; used_material_names := ["a"; "b"]%string;
     modifiers := [];
     materials := [Some mat_a; None; Some mat_c; Some mat_b] |}.

Definition root : Object :=
  mkObject false (KMesh mesh) (Some Sample.fresh_xray) Identity4 [].

(** Slots in the order of the identities, and in the opposite order. *)
Definition forward : nat -> nat := fun i => i.
Definition backward : nat -> nat := fun i => (10 - i)%nat.

End SampleMesh.

Module SampleRig.

Definition bone (name : string) (exportable : bool) : Bone :=
  {| bone_name := name; is_exportable := exportable;
     bone_chunks := [(Idx 0, Packed (cstr name))] |}.

(** An armature with the bones [root] and [spine] and the non-exportable
    bone [ik]; [root] and [ik] are in the group [body], [spine] in none. *)
Definition arm (i : nat) : ArmObj :=
  {| arm_id := i;
     arm_bones := [bone "root" true; bone "ik" false; bone "spine" true];
     pose_bones := [mkPoseBone "root" (Some 0%nat); mkPoseBone "ik" (Some 0%nat);
                    mkPoseBone "spine" None];
     bone_groups := ["body"; "empty"]%string |}.

Definition arm_a : ArmObj := arm 1.
Definition arm_b : ArmObj := arm 2.

(** Two armatures below a root; the walk meets [arm_a] first. *)
Definition root : Object :=
  mkObject false KOther (Some Sample.fresh_xray) Identity4
    [mkObject false (KArmature arm_a) None Identity4 [];
     mkObject false (KArmature arm_b) None Identity4 []].

End SampleRig.

(** ** Vocabulary of the bones and the partitions *)

(** The bones of an armature handed to the bone encoder. *)
Definition encoded_bones (arm : ArmObj) : list Bone :=
  List.filter is_exportable (arm_bones arm).

(** The bytes of a group of [PARTITIONS1]. *)
Definition group_bytes (group : string * list string) : list byte :=
  cstr group.1 ++ u32 (Z.of_nat (length group.2)) ++ concat (map cstr group.2).

(** The [PARTITIONS1] chunk for the non-empty groups [gs], when there are
    some. *)
Definition partitions_chunk (gs : list (string * list string)) : list Chunk :=
  match gs with
  | [] => []
  | _ => [(PARTITIONS1,
           Packed (u32 (Z.of_nat (length gs)) ++ concat (map group_bytes gs)))]
  end.

(** ** Vocabulary of two runs *)

(** Two runs on the same machine state but for the placement of the
    datablocks in memory: the same user, clock, action registry and
    collaborators; the table entries are free. *)
Definition same_inputs (h1 h2 : Host) : Prop :=
  node h1 = node h2 /\ user h1 = user h2 /\ now h1 = now h2
  /\ actions h1 = actions h2 /\ motions_data h1 = motions_data h2
  /\ gen_texture_name h1 = gen_texture_name h2
  /\ matrix_ne h1 = matrix_ne h2 /\ to_euler h1 = to_euler h2.

(** The bytes an export leaves in the caller's writer, for a numbering
    [code] of the chunk identifiers. *)
Definition output_bytes (code : ChunkId -> Z) (r : St * outcome unit) : list byte :=
  ChunkedWriter.data code (Chunked (chunked_writer r.1)).

(** ** Vocabulary of the sections *)

(** The twelve sections in the order [export_main] runs them; [refs] is the
    identifier the motion references are written under. *)
Definition section_order (refs : ChunkId) : list ChunkId :=
  [VERSION; FLAGS; MESHES; SURFACES2; BONES1; USERDATA; LOD_REF; MOTIONS;
   PARTITIONS1; refs; TRANSFORM; REVISION].

(** A computation only appends to the state it is given: chunks whose
    identifiers are, in their order, among [ids], and at most [nw]
    warnings; so it does whether it returns or raises. *)
Definition appends {A} (m : M A) (ids : list ChunkId) (nw : nat) : Prop :=
  forall st, exists cs ws,
    (m st).1 = emit st cs ws
    /\ map fst cs `sublist_of` ids
    /\ (length ws <= nw)%nat.

(** ** Vocabulary of the failures *)

(** Every pose bone of the armature has a data bone of its name. *)
Definition pose_bones_known (arm : ArmObj) : Prop :=
  forall pb, In pb (pose_bones arm) ->
    exists b, In b (arm_bones arm) /\ bone_name b = pbone_name pb.

Module SampleFailure.

(** A material whose active texture index is past its slots. *)
Definition bad_index : Material :=
  {| mat_id := 9; mat_name := "bad"; mat_xray := None; active_texture := None;
     texture_slots := [None]; active_texture_index := 1 |}.

(** An armature with a pose bone that has no data bone. *)
Definition stray_pose : ArmObj :=
  {| arm_id := 5;
     arm_bones := [SampleRig.bone "root" true];
     pose_bones := [mkPoseBone "root" (Some 0%nat); mkPoseBone "ghost" (Some 0%nat)];
     bone_groups := ["body"]%string |}.

(** An armature all of whose bones are marked as not exportable. *)
Definition hidden : ArmObj :=
  {| arm_id := 6;
     arm_bones := [SampleRig.bone "a" false; SampleRig.bone "b" false];
     pose_bones := [mkPoseBone "a" (Some 0%nat); mkPoseBone "b" None];
     bone_groups := ["g"]%string |}.

End SampleFailure.

(** ** Vocabulary of the motions *)

(** The order of names [list.sort] uses. *)
Definition name_lt (a b : string) : Prop := String.ltb a b = true.

(** A name has an action in [bpy.data.actions]. *)
Definition registered (h : Host) (n : string) : Prop :=
  exists a, In (n, a) (actions h).

(** The [MOTIONS] chunk for what the motion encoder wrote, when it wrote
    something. *)
Definition motions_chunk (data : list byte) : list Chunk :=
  match data with
  | [] => []
  | _ => [(MOTIONS, Packed data)]
  end.

Module SampleMotions.

Definition host : Host :=
  {| node := "pc"; user := "bob"; now := 0;
     actions := [("run"%string, mkAction "run"); ("idle"%string, mkAction "idle")];
     motions_data := fun acts _ => concat (map (fun a => cstr (act_name a)) acts);
     gen_texture_name := fun t _ => tex_filepath t;
     matrix_ne := fun a b => negb (bool_decide (a = b));
     to_euler := fun _ _ => (f_zero, f_zero, f_zero);
     slot := fun i => i |}.

Definition with_motions (names : list string) : Object :=
  mkObject false KOther
    (Some {| flags := 0; userdata := EmptyString; lodref := EmptyString;
             motions_collection := names; motionrefs_collection := [];
             motionrefs := EmptyString; revision := mkRevision EmptyString 0 |})
    Identity4 [].

End SampleMotions.

(** ** Vocabulary of completion *)

(** A computation returns from the state [st]. *)
Definition completes (m : M unit) (st : St) : Prop :=
  exists st', m st = (st', Ok tt).

(** A computation returns exactly when [P] holds, whatever the state. *)
Definition returns_iff (m : M unit) (P : Prop) : Prop :=
  forall st, completes m st <-> P.

(** The actions of the motions can be looked up, when they are looked up:
    with an armature and motion export enabled. *)
Definition motions_ready (h : Host) (context : Context) (x : XRayObject)
    (some_arm : option ArmObj) : Prop :=
  some_arm <> None -> export_motions_flag context = true ->
  forall n, In n (motions_collection x) -> registered h n.

(** The data bones of the pose bones can be looked up, when they are looked
    up: with an armature that has bone groups. *)
Definition partitions_ready (some_arm : option ArmObj) : Prop :=
  forall arm, some_arm = Some arm -> bone_groups arm <> [] -> pose_bones_known arm.

(** ** Vocabulary of the meshes and the armatures *)

(** The meshes the walk visits, in its order. *)
Definition visited_meshes (o : Object) : list MeshObj :=
  flat_map (fun n => match kind n with KMesh m => [m] | _ => [] end) (visited o).

(** The walk offers the armature to the set: it is a visited object, or the
    target of an armature modifier of a visited mesh. *)
Definition offered_armature (bpy_obj : Object) (a : ArmObj) : Prop :=
  exists n, In n (visited bpy_obj)
    /\ (kind n = KArmature a
        \/ exists me, kind n = KMesh me /\ In (ArmatureMod (Some a)) (modifiers me)).

Module SampleSkin.

(** A mesh deformed by [SampleRig.arm_a], with that armature as a child:
    the walk meets the armature twice. *)
Definition mesh : MeshObj :=
  {| mesh_chunks := [(Idx 0, Packed [x01])]; used_material_names := [];
     modifiers := [OtherMod; ArmatureMod None; ArmatureMod (Some SampleRig.arm_a)];
     materials := [] |}.

Definition root : Object :=
  mkObject false (KMesh mesh) (Some Sample.fresh_xray) Identity4
    [mkObject false (KArmature SampleRig.arm_a) None Identity4 []].

End SampleSkin.

(** ** Vocabulary of the user data *)

(** The characters of a string. *)
Definition chars (s : string) : list ascii := list_ascii_of_string s.

(** A string holds no line boundary. *)
Definition no_break (s : string) : Prop :=
  Forall (fun c => is_linebreak c = false) (chars s).

(** A string of ASCII characters. *)
Definition ascii_text (s : string) : Prop :=
  Forall (fun c => (nat_of_ascii c < 128)%nat) (chars s).

Module SampleUserData.

Definition lf : string := String (ascii_of_nat 10) EmptyString.

(** Two lines separated by a line feed, with a line feed at the end. *)
Definition two_lines : XRayObject :=
  {| flags := 0; userdata := "a" +:+ lf +:+ "b" +:+ lf; lodref := EmptyString;
     motions_collection := []; motionrefs_collection := [];
     motionrefs := EmptyString; revision := mkRevision EmptyString 0 |}.

Definition one_line : XRayObject :=
  {| flags := 0; userdata := "key = value"; lodref := EmptyString;
     motions_collection := []; motionrefs_collection := [];
     motionrefs := EmptyString; revision := mkRevision EmptyString 0 |}.

End SampleUserData.

(** ** Material properties ([props/material.py]) *)

(** The context [initialize] is called with. *)
Record InitContext := mkInitContext {
  operation : string;
  plugin_version_number : Z
}.

(** [XRayMaterialProperties.initialize], with [bpy.context.active_object]
    given as the value of its [xray.flags_custom_type] when there is an
    active object. *)
Definition initialize (self : XRayMaterial) (context : InitContext)
    (active_object : option string) : XRayMaterial :=
  if mversion self =? 0 then
    if String.eqb (operation context) "LOADED" then
      {| mflags := mflags self; eshader := eshader self; cshader := cshader self;
         gamemtl := gamemtl self; mversion := -1 |}
    else if String.eqb (operation context) "CREATED" then
      let self :=
        {| mflags := mflags self; eshader := eshader self; cshader := cshader self;
           gamemtl := gamemtl self; mversion := plugin_version_number context |} in
      match active_object with
      | Some flags_custom_type =>
          if String.eqb flags_custom_type "st" then
            {| mflags := mflags self; eshader := "default"; cshader := cshader self;
               gamemtl := gamemtl self; mversion := mversion self |}
          else self
      | None => self
      end
    else self
  else self.

(** The property group of a new material: the defaults of the properties. *)
Definition default_material : XRayMaterial :=
  {| mflags := 0; eshader := "models\model"; cshader := "default";
     gamemtl := "default"; mversion := 0 |}.

(** ** Properties *)

Lemma le_bytes_length n v : length (Bytes.le_bytes n v) = n.
Proof. revert v. induction n as [|n IH]; intros v; simpl; [|rewrite IH]; reflexivity. Qed.

Lemma emit_nil st : emit st [] [] = st.
Proof. destruct st; unfold emit; simpl; rewrite !app_nil_r; reflexivity. Qed.

Lemma emit_emit st cs1 ws1 cs2 ws2 :
  emit (emit st cs1 ws1) cs2 ws2 = emit st (cs1 ++ cs2) (ws1 ++ ws2).
Proof. unfold emit; simpl; rewrite !app_assoc; reflexivity. Qed.

Lemma put_emit cid p st : put cid p st = (emit st [(cid, p)] [], Ok tt).
Proof. unfold put, emit, ChunkedWriter.put; rewrite app_nil_r; reflexivity. Qed.

Lemma warn_emit m d st : warn m d st = (emit st [] [(m, d)], Ok tt).
Proof. unfold warn, emit; rewrite app_nil_r; reflexivity. Qed.

Lemma fold_puts (l : list string) (w : PackedWriter.t) :
  fold_left (fun w s => PackedWriter.puts s w) l w = w ++ concat (map cstr l).
Proof.
  revert w; induction l as [|s l IH]; intros w; simpl.
  - rewrite app_nil_r; reflexivity.
  - rewrite IH; unfold PackedWriter.puts, cstr; rewrite <- !app_assoc; reflexivity.
Qed.

Lemma nonempty_true s : nonempty s = true <-> s <> EmptyString.
Proof. destruct s; simpl; split; congruence. Qed.

Lemma nonempty_false s : nonempty s = false <-> s = EmptyString.
Proof. destruct s; simpl; split; congruence. Qed.

(** *** The revision record *)

Lemma revision_record_claim h rev :
  owner rev = EmptyString \/ owner rev = curruser h ->
  revision_record h rev =
    (curruser h, (if decide (ctime rev = 0) then now h else ctime rev), EmptyString, 0).
Proof.
  intros Ho; unfold revision_record.
  assert (Hc : negb (nonempty (owner rev)) || String.eqb (owner rev) (curruser h) = true).
  { destruct Ho as [Ho|Ho]; rewrite Ho.
    - reflexivity.
    - rewrite String.eqb_refl; apply orb_true_r. }
  rewrite Hc.
  destruct (decide (ctime rev = 0)) as [E|E].
  - rewrite E; reflexivity.
  - apply Z.eqb_neq in E; rewrite E; reflexivity.
Qed.

Lemma revision_record_other h rev :
  owner rev <> EmptyString -> owner rev <> curruser h ->
  revision_record h rev = (owner rev, ctime rev, curruser h, now h).
Proof.
  intros Hne Hcu; unfold revision_record.
  apply nonempty_true in Hne; rewrite Hne; simpl.
  apply String.eqb_neq in Hcu; rewrite Hcu; reflexivity.
Qed.

Lemma export_revision_writes h x st :
  export_revision h (Some x) st =
    (let '(o1, t1, o2, t2) := revision_record h (revision x) in
     emit st [(REVISION, Packed (cstr o1 ++ u32 t1 ++ cstr o2 ++ u32 t2))] [], Ok tt).
Proof.
  unfold export_revision, bind, attr_of, ret.
  destruct (revision_record h (revision x)) as [[[o1 t1] o2] t2].
  rewrite put_emit; unfold PackedWriter.putf_I, PackedWriter.puts, PackedWriter.new, cstr, u32.
  simpl; rewrite <- !app_assoc; reflexivity.
Qed.

(** C4 (as the code has it).  [export_revision] implements the two-case
    transition: when the stored owner is empty or is the current user it
    writes (current user, stored ctime if non-zero else the current time,
    empty string, 0), otherwise (stored owner, stored ctime, current user,
    current time).  The stored revision is only read: a second export by the
    same user writes the same owner field, and the same ctime whenever the
    stored ctime is non-zero or the stored owner is another user. *)
Theorem export_revision_transition (h : Host) (x : XRayObject) (st : St) :
  let rev := revision x in
  let cu := curruser h in
  let written o1 t1 o2 t2 :=
    (emit st [(REVISION, Packed (cstr o1 ++ u32 t1 ++ cstr o2 ++ u32 t2))] [], Ok tt) in
  (owner rev = EmptyString \/ owner rev = cu ->
   export_revision h (Some x) st =
     written cu (if decide (ctime rev = 0) then now h else ctime rev) EmptyString 0)
  /\ (owner rev <> EmptyString /\ owner rev <> cu ->
      export_revision h (Some x) st = written (owner rev) (ctime rev) cu (now h))
  /\ (forall h' : Host, curruser h' = cu ->
      rec_owner (revision_record h' rev) = rec_owner (revision_record h rev)
      /\ (ctime rev <> 0 \/ (owner rev <> EmptyString /\ owner rev <> cu) ->
          rec_ctime (revision_record h' rev) = rec_ctime (revision_record h rev))).
Proof.
  intros rev cu written; subst written; cbv beta.
  split; [|split].
  - intros Ho; rewrite export_revision_writes.
    fold rev; rewrite (revision_record_claim h rev Ho); reflexivity.
  - intros [Hne Hcu]; rewrite export_revision_writes.
    fold rev; rewrite (revision_record_other h rev Hne Hcu); reflexivity.
  - intros h' Hu.
    destruct (decide (owner rev = EmptyString \/ owner rev = cu)) as [Ho|Ho].
    + rewrite (revision_record_claim h rev Ho).
      assert (Ho' : owner rev = EmptyString \/ owner rev = curruser h')
        by (rewrite Hu; exact Ho).
      rewrite (revision_record_claim h' rev Ho').
      unfold rec_owner, rec_ctime; simpl; split; [exact Hu|].
      intros [Hc|[Hne Hcu]].
      * destruct (decide (ctime rev = 0)); [contradiction|reflexivity].
      * destruct Ho; contradiction.
    + assert (Hne : owner rev <> EmptyString) by (intros E; apply Ho; left; exact E).
      assert (Hcu : owner rev <> cu) by (intros E; apply Ho; right; exact E).
      rewrite (revision_record_other h rev Hne Hcu).
      assert (Hcu' : owner rev <> curruser h') by (rewrite Hu; exact Hcu).
      rewrite (revision_record_other h' rev Hne Hcu').
      unfold rec_owner, rec_ctime; simpl; split; reflexivity.
Qed.

Lemma export_revision_transition_witness :
  export_revision (Sample.host 100 id)
      (Some (Sample.with_revision (mkRevision "\\pc\alice" 7))) Sample.st0 =
    (emit Sample.st0
       [(REVISION,
         Packed (cstr "\\pc\alice" ++ u32 7 ++ cstr "\\pc\bob" ++ u32 100))] [],
     Ok tt)
  /\ export_revision (Sample.host 100 id)
      (Some (Sample.with_revision (mkRevision "\\pc\bob" 7))) Sample.st0 =
    (emit Sample.st0
       [(REVISION, Packed (cstr "\\pc\bob" ++ u32 7 ++ cstr EmptyString ++ u32 0))] [],
     Ok tt)
  /\ rec_ctime (revision_record (Sample.host 200 id) (mkRevision "\\pc\bob" 7)) =
     rec_ctime (revision_record (Sample.host 100 id) (mkRevision "\\pc\bob" 7)).
Proof.
  split; [|split].
  - apply (proj1 (proj2 (export_revision_transition (Sample.host 100 id)
             (Sample.with_revision (mkRevision "\\pc\alice" 7)) Sample.st0))).
    split; discriminate.
  - apply (proj1 (export_revision_transition (Sample.host 100 id)
             (Sample.with_revision (mkRevision "\\pc\bob" 7)) Sample.st0)).
    right; reflexivity.
  - apply (proj2 (proj2 (export_revision_transition (Sample.host 100 id)
             (Sample.with_revision (mkRevision "\\pc\bob" 7)) Sample.st0))
             (Sample.host 200 id) eq_refl).
    left; discriminate.
Defined.

(** C4, the claim as stated fails: with a never-set revision, two exports by
    the same user at different clock values write different ctime fields. *)
Lemma revision_ctime_not_preserved :
  ~ (forall (h1 h2 : Host) (x : XRayObject),
        curruser h1 = curruser h2 ->
        rec_owner (revision_record h2 (revision x)) =
          rec_owner (revision_record h1 (revision x))
        /\ rec_ctime (revision_record h2 (revision x)) =
          rec_ctime (revision_record h1 (revision x))).
Proof.
  intros H.
  destruct (H (Sample.host 100 id) (Sample.host 200 id) Sample.fresh_xray eq_refl)
    as [_ Hc].
  vm_compute in Hc; discriminate Hc.
Qed.

(** *** Motion references *)

(** C6.  With a non-empty collection of motion references and the legacy
    string set as well, [export_motion_refs] writes the encoding of the
    collection and gives exactly one warning: under [soc_sgroups] the chunk
    [MOTION_REFS] with the names joined by commas as one string, otherwise
    the chunk [SMOTIONS3] with the count and then each name. *)
Theorem export_motion_refs_both (x : XRayObject) (context : Context) (st : St) :
  motionrefs_collection x <> [] ->
  motionrefs x <> EmptyString ->
  export_motion_refs (Some x) context st =
    (emit st
       [if soc_sgroups context
        then (MOTION_REFS,
              Packed (cstr (String.concat "," (motionrefs_collection x))))
        else (SMOTIONS3,
              Packed (u32 (Z.of_nat (length (motionrefs_collection x)))
                        ++ concat (map cstr (motionrefs_collection x))))]
       [("MotionRefs: skipped legacy data"%string, motionrefs x)],
     Ok tt).
Proof.
  intros Hc Hl.
  unfold export_motion_refs, bind, attr_of, ret.
  destruct (motionrefs_collection x) as [|r rs] eqn:E; [congruence|].
  apply nonempty_true in Hl; rewrite Hl.
  rewrite warn_emit.
  destruct (soc_sgroups context); rewrite put_emit, emit_emit.
  - reflexivity.
  - rewrite fold_puts; reflexivity.
Qed.

Lemma export_motion_refs_both_witness :
  export_motion_refs (Some Sample.both_refs) Sample.context Sample.st0 =
    (emit Sample.st0
       [(SMOTIONS3, Packed (u32 2 ++ cstr "run" ++ cstr "walk"))]
       [("MotionRefs: skipped legacy data"%string, "old"%string)],
     Ok tt).
Proof.
  apply (export_motion_refs_both Sample.both_refs Sample.context Sample.st0);
    discriminate.
Defined.

(** *** The transform *)

(** C8 (as the code has it).  [export_transform] writes the [TRANSFORM]
    chunk exactly when the comparison of [mathutils] reports the world
    matrix of the root different from the 4x4 identity; the payload is the
    translation as (x, z, y) and then the YXZ Euler angles as (x, z, y),
    three floats each.  The comparison has a tolerance: a chunk is written
    only for a matrix other than the identity, and none is written for a
    matrix within one unit in the last place of the identity in every
    entry. *)
Theorem export_transform_iff (h : Host) (bpy_root : Object) (st : St) :
  let m := matrix_world bpy_root in
  let differs := matrix_ne h m Identity4 in
  let '(tx, ty, tz) := to_translation m in
  let '(ex, ey, ez) := to_euler h m "YXZ" in
  export_transform h bpy_root st =
    (emit st
       (if differs
        then [(TRANSFORM,
               Packed (Bytes.le_bytes 4 tx ++ Bytes.le_bytes 4 tz ++ Bytes.le_bytes 4 ty
                         ++ Bytes.le_bytes 4 ex ++ Bytes.le_bytes 4 ez
                         ++ Bytes.le_bytes 4 ey))]
        else []) [],
     Ok tt)
  /\ (In TRANSFORM (map fst (chunked_writer (export_transform h bpy_root st).1))
      <-> differs = true \/ In TRANSFORM (map fst (chunked_writer st)))
  /\ (compares_within_ulp h ->
      (differs = true -> m <> Identity4)
      /\ (Mathutils.matrix_eq m Identity4 = true ->
          export_transform h bpy_root st = (st, Ok tt))).
Proof.
  intros m differs.
  destruct (to_translation m) as [[tx ty] tz] eqn:Et.
  destruct (to_euler h m "YXZ") as [[ex ey] ez] eqn:Ee.
  assert (Hrun : export_transform h bpy_root st =
    (emit st
       (if differs
        then [(TRANSFORM,
               Packed (Bytes.le_bytes 4 tx ++ Bytes.le_bytes 4 tz ++ Bytes.le_bytes 4 ty
                         ++ Bytes.le_bytes 4 ex ++ Bytes.le_bytes 4 ez
                         ++ Bytes.le_bytes 4 ey))]
        else []) [], Ok tt)).
  { unfold export_transform; fold m; fold differs.
    destruct differs.
    - rewrite put_emit, Et, Ee.
      unfold pw_v3f, PackedWriter.putf_fff, PackedWriter.putf_f, PackedWriter.new.
      repeat rewrite <- app_assoc; reflexivity.
    - unfold ret; rewrite emit_nil; reflexivity. }
  split; [exact Hrun|split].
  - rewrite Hrun; simpl; rewrite map_app, in_app_iff.
    destruct differs; simpl; split; intros H.
    + left; reflexivity.
    + right; left; reflexivity.
    + destruct H as [H|[]]; right; exact H.
    + destruct H as [H|H]; [discriminate|left; exact H].
  - intros Htol; split.
    + intros Hd E; subst differs; rewrite E in Hd.
      rewrite (Htol Identity4 Identity4 eq_refl) in Hd; discriminate Hd.
    + intros Heq; unfold export_transform; fold m.
      rewrite (Htol m Identity4 Heq); reflexivity.
Qed.

Lemma export_transform_iff_witness :
  export_transform SampleTransform.host
      (SampleTransform.root SampleTransform.near_identity) Sample.st0 =
    (Sample.st0, Ok tt)
  /\ SampleTransform.moved <> Identity4.
Proof.
  assert (Htol : compares_within_ulp SampleTransform.host).
  { intros m1 m2 H; simpl; unfold Mathutils.matrix_ne; rewrite H; reflexivity. }
  split.
  - apply (proj2 (proj2 (proj2
             (export_transform_iff SampleTransform.host
                (SampleTransform.root SampleTransform.near_identity) Sample.st0))
             Htol)).
    vm_compute; reflexivity.
  - apply (proj1 (proj2 (proj2
             (export_transform_iff SampleTransform.host
                (SampleTransform.root SampleTransform.moved) Sample.st0))
             Htol)).
    vm_compute; reflexivity.
Defined.

(** C8, the claim as stated fails: a world matrix one unit in the last place
    away from the identity in one entry differs from the identity, and no
    [TRANSFORM] chunk is written for it. *)
Lemma transform_skipped_near_identity :
  ~ (forall (bpy_root : Object) (st : St),
        ~ In TRANSFORM (map fst (chunked_writer st)) ->
        (In TRANSFORM
           (map fst (chunked_writer
                       (export_transform SampleTransform.host bpy_root st).1))
         <-> matrix_world bpy_root <> Identity4)).
Proof.
  intros H.
  specialize (H (SampleTransform.root SampleTransform.near_identity) Sample.st0).
  assert (Hst : ~ In TRANSFORM (map fst (chunked_writer Sample.st0)))
    by (intros []).
  destruct (H Hst) as [_ Hback].
  assert (Hne : matrix_world (SampleTransform.root SampleTransform.near_identity)
                <> Identity4) by discriminate.
  apply Hback in Hne; vm_compute in Hne; exact Hne.
Qed.

(** *** The sections of [export_main] *)

Lemma bind_ok {A B} (m : M A) (k : A -> M B) st st' a :
  m st = (st', Ok a) -> bind m k st = k a st'.
Proof. intros E; unfold bind; rewrite E; reflexivity. Qed.

Lemma bind_raise {A B} (m : M A) (k : A -> M B) st st' e :
  m st = (st', Raise e) -> bind m k st = (st', Raise e).
Proof. intros E; unfold bind; rewrite E; reflexivity. Qed.

Lemma export_version_emit st :
  export_version st = (emit st [(VERSION, Packed [x10; x00])] [], Ok tt).
Proof. unfold export_version; rewrite put_emit; reflexivity. Qed.

Lemma export_flags_emit x st :
  export_flags x st =
    (emit st [(FLAGS, Packed (u32 (match x with Some x => flags x | None => 0 end)))] [],
     Ok tt).
Proof. unfold export_flags; rewrite put_emit; reflexivity. Qed.

Lemma export_meshes_emit h o st :
  export_meshes h o st =
    (emit st [(MESHES, Chunked (indexed (mesh_writers (collected o))))] [],
     Ok (materials_set (collected o), collected_bone_writers h (collected o),
         chosen_armature h (collected o), o)).
Proof.
  unfold export_meshes; cbv zeta.
  erewrite bind_ok by apply put_emit; reflexivity.
Qed.

Lemma export_bones_emit ws st :
  export_bones ws st = (emit st (bones_chunk ws) [], Ok tt).
Proof.
  unfold export_bones, bones_chunk; destruct ws.
  - unfold ret; rewrite emit_nil; reflexivity.
  - apply put_emit.
Qed.

(** The first five steps of [export_main]: what is written up to the bones,
    or the exception of the surfaces; then the remaining sections. *)
Lemma export_main_head h o context st :
  export_main h o context st =
  let sc := collected o in
  let f := match xray o with Some x => flags x | None => 0 end in
  match surface_entries h context
          (PySet.iter mat_id (slot h) (materials_set sc))
          (u32 (Z.of_nat (length (materials_set sc)))) with
  | Ok sfw =>
      (let* _ := export_user_data (xray o) in
       let* _ := export_loddef (xray o) in
       let* _ := export_motions h (chosen_armature h sc) context o in
       let* _ := export_partitions (chosen_armature h sc) in
       let* _ := export_motion_refs (xray o) context in
       let* _ := export_transform h o in
       export_revision h (xray o))
        (emit st (head_chunks f sc ++ [(SURFACES2, Packed sfw)]
                    ++ bones_chunk (collected_bone_writers h sc)) [])
  | Raise e => (emit st (head_chunks f sc) [], Raise e)
  end.
Proof.
  unfold export_main; cbv zeta.
  erewrite bind_ok by apply export_version_emit.
  erewrite bind_ok by apply export_flags_emit.
  erewrite bind_ok by apply export_meshes_emit.
  cbv zeta. rewrite !emit_emit; simpl app.
  unfold export_surfaces at 1, lift, PySet.len, PackedWriter.putf_I, PackedWriter.new.
  simpl app. fold (u32 (Z.of_nat (length (materials_set (collected o))))).
  unfold bind at 1. unfold bind at 1.
  destruct (surface_entries _ _ _ _) as [sfw|e]; [|reflexivity].
  rewrite put_emit, emit_emit.
  unfold bind at 1; rewrite export_bones_emit, emit_emit.
  reflexivity.
Qed.

(** *** Python sets *)

Section PySetFacts.
Local Open Scope nat_scope.
Context {A : Type} (ident : A -> nat).

Lemma mem_spec (x : A) (s : list A) :
  PySet.mem ident x s = true <-> exists y, In y s /\ ident y = ident x.
Proof.
  unfold PySet.mem; rewrite existsb_exists.
  split; intros (y & Hy & E); exists y; split; auto.
  - apply Nat.eqb_eq; exact E.
  - apply Nat.eqb_eq; exact E.
Qed.

Lemma add_In (x y : A) (s : list A) :
  In y (PySet.add ident x s) <-> In y s \/ (y = x /\ PySet.mem ident x s = false).
Proof.
  unfold PySet.add; destruct (PySet.mem ident x s) eqn:E.
  - split; [auto|intros [H|[_ H]]; [exact H|discriminate]].
  - rewrite in_app_iff; simpl; split.
    + intros [H|[H|[]]]; [left; exact H|right; split; [symmetry; exact H|reflexivity]].
    + intros [H|[H _]]; [left; exact H|right; left; symmetry; exact H].
Qed.

Lemma add_incl (x : A) (s : list A) : incl s (PySet.add ident x s).
Proof. intros y Hy; apply add_In; left; exact Hy. Qed.

Lemma add_mem (x : A) (s : list A) : PySet.mem ident x (PySet.add ident x s) = true.
Proof.
  destruct (PySet.mem ident x s) eqn:E.
  - unfold PySet.add; rewrite E; exact E.
  - apply mem_spec; exists x; split; [|reflexivity].
    apply add_In; right; split; [reflexivity|exact E].
Qed.

Lemma mem_mono (x y : A) (s : list A) :
  PySet.mem ident y s = true -> PySet.mem ident y (PySet.add ident x s) = true.
Proof.
  rewrite !mem_spec; intros (z & Hz & E); exists z; split; [|exact E].
  apply add_incl; exact Hz.
Qed.

Lemma add_NoDup (x : A) (s : list A) :
  List.NoDup (map ident s) -> List.NoDup (map ident (PySet.add ident x s)).
Proof.
  intros Hn; unfold PySet.add; destruct (PySet.mem ident x s) eqn:E; [exact Hn|].
  rewrite map_app; simpl.
  apply NoDup_ListNoDup, NoDup_app; repeat split.
  - apply NoDup_ListNoDup; exact Hn.
  - intros i Hi Hx; apply list_elem_of_In in Hi, Hx.
    destruct Hx as [Hx|[]]; subst i.
    apply in_map_iff in Hi as (y & Ey & Hy).
    assert (Hm : PySet.mem ident x s = true) by (apply mem_spec; exists y; auto).
    congruence.
  - apply NoDup_singleton.
Qed.

Variable slot : nat -> nat.

Lemma place_perm (x : A) (l : list A) :
  Permutation (PySet.place ident slot x l) (x :: l).
Proof.
  induction l as [|y r IH]; simpl; [reflexivity|].
  destruct (slot (ident x) <=? slot (ident y)); [reflexivity|].
  rewrite IH; apply perm_swap.
Qed.

Lemma iter_perm (s : list A) : Permutation (PySet.iter ident slot s) s.
Proof.
  induction s as [|x r IH]; simpl; [reflexivity|].
  rewrite place_perm, IH; reflexivity.
Qed.

Lemma iter_In (x : A) (s : list A) : In x (PySet.iter ident slot s) <-> In x s.
Proof.
  split; apply Permutation_in; [|symmetry]; apply iter_perm.
Qed.

Lemma iter_length (s : list A) : length (PySet.iter ident slot s) = length s.
Proof. apply Permutation_length, iter_perm. Qed.

Lemma place_sorted (x : A) (l : list A) :
  StronglySorted (by_slot ident slot) l -> StronglySorted (by_slot ident slot) (PySet.place ident slot x l).
Proof.
  induction 1 as [|y r Hs IH Hy]; simpl.
  - constructor; constructor.
  - destruct (slot (ident x) <=? slot (ident y)) eqn:E.
    + apply Nat.leb_le in E.
      constructor; [constructor; assumption|].
      constructor; [exact E|].
      eapply Forall_impl; [exact Hy|].
      intros b Hb; unfold by_slot in *; lia.
    + apply Nat.leb_gt in E.
      constructor; [exact IH|].
      rewrite (place_perm x r); constructor; [unfold by_slot; lia|exact Hy].
Qed.

Lemma iter_sorted (s : list A) : StronglySorted (by_slot ident slot) (PySet.iter ident slot s).
Proof.
  induction s as [|x r IH]; simpl; [constructor|apply place_sorted; exact IH].
Qed.

Lemma iter_head_least (s : list A) (a : A) :
  head (PySet.iter ident slot s) = Some a ->
  In a s /\ forall b, In b s -> slot (ident a) <= slot (ident b).
Proof.
  intros Hh.
  pose proof (iter_sorted s) as Hs.
  destruct (PySet.iter ident slot s) as [|a' r] eqn:E; [discriminate|].
  injection Hh as ->.
  assert (Ha : In a s) by (apply iter_In; rewrite E; left; reflexivity).
  split; [exact Ha|].
  intros b Hb; apply iter_In in Hb; rewrite E in Hb.
  destruct Hb as [<-|Hb]; [lia|].
  apply StronglySorted_inv in Hs as [_ Hall].
  rewrite List.Forall_forall in Hall; apply Hall; exact Hb.
Qed.

Lemma iter_head_none (s : list A) :
  head (PySet.iter ident slot s) = None <-> s = [].
Proof.
  split.
  - intros Hh; destruct s as [|x r]; [reflexivity|].
    pose proof (iter_length (x :: r)) as Hl.
    destruct (PySet.iter ident slot (x :: r)); [discriminate Hl|discriminate Hh].
  - intros ->; reflexivity.
Qed.

End PySetFacts.

Lemma place_same_order {A} (ident : A -> nat) slot1 slot2 (x : A) (l s : list A) :
  same_order ident slot1 slot2 s -> In x s -> incl l s ->
  PySet.place ident slot1 x l = PySet.place ident slot2 x l.
Proof.
  intros Ho Hx; induction l as [|y r IH]; intros Hl; simpl; [reflexivity|].
  rewrite (Ho x y Hx (Hl y (or_introl eq_refl))).
  rewrite IH; [reflexivity|].
  intros z Hz; apply Hl; right; exact Hz.
Qed.

Lemma iter_same_order {A} (ident : A -> nat) slot1 slot2 (s : list A) :
  same_order ident slot1 slot2 s ->
  PySet.iter ident slot1 s = PySet.iter ident slot2 s.
Proof.
  intros Ho.
  assert (H : forall l, incl l s -> PySet.iter ident slot1 l = PySet.iter ident slot2 l).
  { induction l as [|x r IH]; intros Hl; simpl; [reflexivity|].
    rewrite IH by (intros z Hz; apply Hl; right; exact Hz).
    apply (place_same_order ident slot1 slot2 x _ s Ho).
    - apply Hl; left; reflexivity.
    - intros z Hz; apply iter_In in Hz; apply Hl; right; exact Hz. }
  apply H; intros z Hz; exact Hz.
Qed.

(** *** Surfaces *)

Lemma surface_entry_bytes h context m sfw slot_ :
  texture_slots m !! active_texture_index m = Some slot_ ->
  surface_entry h context m sfw =
    Ok (sfw ++ entry_of m (texture_name_of h context m) (uv_of slot_)).
Proof.
  intros Hs; unfold surface_entry; rewrite Hs.
  unfold entry_of, shader_bytes, material_flags, texture_name_of, uv_of.
  unfold PackedWriter.putf_I, PackedWriter.puts, cstr, u32.
  destruct (mat_xray m); repeat rewrite <- app_assoc; reflexivity.
Qed.

Lemma surface_entry_raises h context m sfw :
  texture_slots m !! active_texture_index m = None ->
  surface_entry h context m sfw = Raise IndexError.
Proof. intros Hs; unfold surface_entry; rewrite Hs; reflexivity. Qed.

Lemma valid_slot_lookup m :
  valid_slot m -> texture_slots m !! active_texture_index m = Some (active_slot m).
Proof.
  unfold valid_slot, active_slot; intros Hv.
  destruct (texture_slots m !! active_texture_index m) eqn:E; [reflexivity|].
  apply lookup_ge_None in E; lia.
Qed.

Lemma surface_entries_bytes h context ms :
  Forall valid_slot ms ->
  forall sfw,
  surface_entries h context ms sfw =
    Ok (sfw ++ concat (map (fun m => entry_of m (texture_name_of h context m)
                                       (uv_of (active_slot m))) ms)).
Proof.
  induction 1 as [|m r Hm _ IH]; intros sfw; simpl.
  - rewrite app_nil_r; reflexivity.
  - rewrite (surface_entry_bytes h context m sfw _ (valid_slot_lookup m Hm)); simpl.
    rewrite IH, <- app_assoc; reflexivity.
Qed.

(** C2 (as the code has it).  For a material with no active texture the
    texture-name field of its entry is the empty string, and the UV-layer
    field that follows is the UV layer of the slot at the active texture
    index, the empty string when that slot is empty. *)
Theorem surface_entry_no_texture (h : Host) (context : Context) (m : Material)
    (sfw : PackedWriter.t) (slot_ : option TextureSlot) :
  active_texture m = None ->
  texture_slots m !! active_texture_index m = Some slot_ ->
  surface_entry h context m sfw = Ok (sfw ++ entry_of m EmptyString (uv_of slot_))
  /\ (slot_ = None ->
      surface_entry h context m sfw = Ok (sfw ++ entry_of m EmptyString EmptyString)).
Proof.
  intros Ht Hs.
  assert (E : surface_entry h context m sfw =
              Ok (sfw ++ entry_of m EmptyString (uv_of slot_))).
  { rewrite (surface_entry_bytes h context m sfw slot_ Hs).
    unfold texture_name_of; rewrite Ht; reflexivity. }
  split; [exact E|].
  intros ->; exact E.
Qed.

Lemma surface_entry_no_texture_witness :
  surface_entry (Sample.host 0 id) Sample.context SampleMaterial.no_slot [] =
    Ok (entry_of SampleMaterial.no_slot EmptyString EmptyString)
  /\ surface_entry (Sample.host 0 id) Sample.context SampleMaterial.bare_slot [] =
    Ok (entry_of SampleMaterial.bare_slot EmptyString "UVMap").
Proof.
  split.
  - apply (proj2 (surface_entry_no_texture (Sample.host 0 id) Sample.context
                    SampleMaterial.no_slot [] None eq_refl eq_refl)).
    reflexivity.
  - apply (proj1 (surface_entry_no_texture (Sample.host 0 id) Sample.context
                    SampleMaterial.bare_slot [] (Some (mkSlot "UVMap"))
                    eq_refl eq_refl)).
Defined.

(** C2, the claim as stated fails: a material with no active texture whose
    active slot names a UV layer gets that name in the UV-layer field. *)
Lemma surface_entry_uv_without_texture :
  ~ (forall (h : Host) (context : Context) (m : Material) (sfw : PackedWriter.t),
        active_texture m = None ->
        valid_slot m ->
        surface_entry h context m sfw =
          Ok (sfw ++ entry_of m EmptyString EmptyString)).
Proof.
  intros H.
  specialize (H (Sample.host 0 id) Sample.context SampleMaterial.bare_slot []
                eq_refl).
  assert (Hv : valid_slot SampleMaterial.bare_slot) by (unfold valid_slot; simpl; lia).
  specialize (H Hv).
  vm_compute in H; discriminate H.
Qed.

(** *** An object without extension data *)

Lemma export_user_data_none st :
  export_user_data None st = (st, Raise (AttributeError "userdata")).
Proof. reflexivity. Qed.

(** C10.  For a root object with no [xray] attribute, [export_flags] writes
    the flag value 0 and [export_main] never returns: it raises.  When the
    surfaces are written (every collected material has its active texture
    index within its slots, as Blender keeps it), the exception is the
    attribute error of [export_user_data] on [xray.userdata], raised after
    [VERSION], [FLAGS], [MESHES], [SURFACES2] and the bones, with none of the
    later sections written. *)
Theorem export_main_without_xray (h : Host) (bpy_obj : Object) (context : Context)
    (st : St) :
  xray bpy_obj = None ->
  let sc := collected bpy_obj in
  export_flags (xray bpy_obj) st = (emit st [(FLAGS, Packed (u32 0))] [], Ok tt)
  /\ (exists st' e rest,
        export_main h bpy_obj context st = (st', Raise e)
        /\ chunked_writer st' = chunked_writer st ++ head_chunks 0 sc ++ rest)
  /\ (Forall valid_slot (materials_set sc) ->
      export_main h bpy_obj context st =
        (emit st
           (head_chunks 0 sc
              ++ [(SURFACES2,
                   Packed (u32 (Z.of_nat (length (materials_set sc)))
                             ++ concat
                                  (map (fun m =>
                                          entry_of m (texture_name_of h context m)
                                            (uv_of (active_slot m)))
                                     (PySet.iter mat_id (slot h) (materials_set sc)))))]
              ++ bones_chunk (collected_bone_writers h sc)) [],
         Raise (AttributeError "userdata"))).
Proof.
  intros Hx sc.
  split; [|split].
  - rewrite Hx; apply export_flags_emit.
  - rewrite export_main_head; cbv zeta; rewrite Hx; fold sc.
    destruct (surface_entries _ _ _ _) as [sfw|e].
    + erewrite bind_raise by apply export_user_data_none.
      eexists _, _, _; split; [reflexivity|].
      unfold emit; cbn [chunked_writer]; reflexivity.
    + eexists _, _, []; split; [reflexivity|].
      unfold emit; cbn [chunked_writer]; rewrite app_nil_r; reflexivity.
  - intros Hv.
    rewrite export_main_head; cbv zeta; rewrite Hx; fold sc.
    rewrite surface_entries_bytes
      by (rewrite (iter_perm mat_id (slot h) (materials_set sc)); exact Hv).
    erewrite bind_raise by apply export_user_data_none.
    reflexivity.
Qed.

Lemma export_main_without_xray_witness :
  export_main (Sample.host 1000 id) (SampleScene.empty_root None)
      Sample.context Sample.st0 =
    (emit Sample.st0
       [(VERSION, Packed [x10; x00]);
        (FLAGS, Packed (u32 0));
        (MESHES, Chunked []);
        (SURFACES2, Packed (u32 0))] [],
     Raise (AttributeError "userdata")).
Proof.
  apply (proj2 (proj2 (export_main_without_xray (Sample.host 1000 id)
                         (SampleScene.empty_root None) Sample.context Sample.st0
                         eq_refl))).
  constructor.
Defined.

(** *** What the walk collects *)

Lemma add_all_app {A} (ident : A -> nat) (l1 l2 s : list A) :
  add_all ident (l1 ++ l2) s = add_all ident l2 (add_all ident l1 s).
Proof. unfold add_all; apply fold_left_app. Qed.

Lemma scan_modifiers_spec ms arms :
  scan_modifiers ms arms = add_all arm_id (modifier_targets ms) arms.
Proof.
  revert arms; induction ms as [|m r IH]; intros arms; [reflexivity|].
  unfold modifier_targets; simpl flat_map; fold (modifier_targets r).
  rewrite add_all_app, <- IH.
  destruct m as [[a|]|]; reflexivity.
Qed.

Lemma scan_materials_spec m mats :
  scan_materials (used_material_names m) (materials m) mats =
    add_all mat_id (offered_materials m) mats.
Proof.
  unfold offered_materials.
  generalize (used_material_names m) as used; intros used.
  revert mats; induction (materials m) as [|s r IH]; intros mats; [reflexivity|].
  simpl flat_map; rewrite add_all_app, <- IH.
  destruct s as [mat|]; [|reflexivity].
  simpl; destruct (bool_decide (mat_name mat ∈ used)); reflexivity.
Qed.

Lemma scan_r_spec (o : Object) :
  forall acc,
  scan_r o acc =
    {| mesh_writers := mesh_writers acc ++ flat_map node_writers (visited o);
       armatures := add_all arm_id (encountered o) (armatures acc);
       materials_set :=
         add_all mat_id (flat_map node_materials (visited o)) (materials_set acc) |}.
Proof.
  unfold encountered.
  induction o as [h k x m cs IH] using Object_ind'; intros acc.
  simpl scan_r; simpl visited.
  destruct h.
  { destruct acc; simpl; rewrite app_nil_r; reflexivity. }
  set (o := mkObject false k x m cs).
  set (acc1 := match k with
               | KMesh _ => _ | KArmature _ => _ | KOther => _ end).
  assert (H1 : acc1 =
    {| mesh_writers := mesh_writers acc ++ node_writers o;
       armatures := add_all arm_id (node_armatures o) (armatures acc);
       materials_set := add_all mat_id (node_materials o) (materials_set acc) |}).
  { subst acc1; unfold node_writers, node_armatures, node_materials; simpl.
    destruct k as [me|a|]; simpl.
    - rewrite scan_modifiers_spec, scan_materials_spec; reflexivity.
    - rewrite app_nil_r; reflexivity.
    - destruct acc; simpl; rewrite app_nil_r; reflexivity. }
  rewrite H1; clear H1 acc1.
  simpl flat_map; rewrite !add_all_app, app_assoc.
  generalize (mesh_writers acc ++ node_writers o) as ws.
  generalize (add_all arm_id (node_armatures o) (armatures acc)) as arms.
  generalize (add_all mat_id (node_materials o) (materials_set acc)) as mats.
  clear o; induction IH as [|c r Hc _ IHr]; intros mats arms ws; simpl.
  - rewrite app_nil_r; reflexivity.
  - rewrite Hc; simpl.
    rewrite IHr, !flat_map_app, !add_all_app, app_assoc; reflexivity.
Qed.

Lemma collected_spec (o : Object) :
  collected o =
    {| mesh_writers := flat_map node_writers (visited o);
       armatures := add_all arm_id (encountered o) [];
       materials_set := add_all mat_id (flat_map node_materials (visited o)) [] |}.
Proof. unfold collected; rewrite scan_r_spec; reflexivity. Qed.

Section AddAll.
Context {A : Type} (ident : A -> nat).

Lemma add_all_In (x : A) (l s : list A) :
  In x (add_all ident l s) -> In x s \/ In x l.
Proof.
  revert s; induction l as [|y r IH]; intros s; simpl; [auto|].
  intros H; apply IH in H as [H|H]; [|auto].
  apply add_In in H as [H|[-> _]]; auto.
Qed.

Lemma add_all_mem_old (x : A) (l s : list A) :
  PySet.mem ident x s = true -> PySet.mem ident x (add_all ident l s) = true.
Proof.
  revert s; induction l as [|y r IH]; intros s Hm; simpl; [exact Hm|].
  apply IH, mem_mono; exact Hm.
Qed.

Lemma add_all_mem (x : A) (l s : list A) :
  In x l -> PySet.mem ident x (add_all ident l s) = true.
Proof.
  revert s; induction l as [|y r IH]; intros s; simpl; [tauto|].
  intros [->|H]; [|apply IH; exact H].
  apply add_all_mem_old, add_mem.
Qed.

Lemma add_all_NoDup (l s : list A) :
  List.NoDup (map ident s) -> List.NoDup (map ident (add_all ident l s)).
Proof.
  revert s; induction l as [|y r IH]; intros s Hn; simpl; [exact Hn|].
  apply IH, add_NoDup; exact Hn.
Qed.

Lemma add_all_nil (l : list A) : add_all ident l [] = [] <-> l = [].
Proof.
  split; [|intros ->; reflexivity].
  destruct l as [|y r]; [reflexivity|]; intros E.
  pose proof (add_all_mem y (y :: r) [] (or_introl eq_refl)) as Hm.
  rewrite E in Hm; discriminate Hm.
Qed.

(** Adding elements that all are one datablock leaves the first. *)
Lemma add_all_same (a : A) (l : list A) :
  (forall b, In b l -> ident b = ident a) -> add_all ident l [a] = [a].
Proof.
  induction l as [|y r IH]; intros H; simpl; [reflexivity|].
  unfold PySet.add at 1; simpl.
  rewrite (H y (or_introl eq_refl)), Nat.eqb_refl; simpl.
  apply IH; intros b Hb; apply H; right; exact Hb.
Qed.

End AddAll.

(** *** The material set *)

Lemma offered_materials_In (me : MeshObj) (m : Material) :
  In m (offered_materials me) <->
  In (Some m) (materials me) /\ In (mat_name m) (used_material_names me).
Proof.
  unfold offered_materials; rewrite in_flat_map; split.
  - intros ([m'|] & Hs & Hm); [|destruct Hm].
    destruct (bool_decide (mat_name m' ∈ used_material_names me)) eqn:E;
      [|destruct Hm].
    destruct Hm as [<-|[]].
    apply bool_decide_eq_true in E; apply list_elem_of_In in E; auto.
  - intros [Hs Hu]; exists (Some m); split; [exact Hs|].
    apply list_elem_of_In in Hu.
    rewrite (bool_decide_eq_true_2 _ Hu); left; reflexivity.
Qed.

Lemma node_materials_In (bpy_obj : Object) (m : Material) :
  In m (flat_map node_materials (visited bpy_obj)) <->
  exists me, attached bpy_obj m me /\ In (mat_name m) (used_material_names me).
Proof.
  rewrite in_flat_map; unfold attached, node_materials; split.
  - intros (o & Ho & Hm).
    destruct (kind o) as [me| |] eqn:Ek; try destruct Hm.
    apply offered_materials_In in Hm as [Hs Hu].
    exists me; split; [exists o|]; auto.
  - intros (me & (o & Ho & Ek & Hs) & Hu).
    exists o; split; [exact Ho|].
    rewrite Ek; apply offered_materials_In; auto.
Qed.

Lemma export_surfaces_emit h context mats st :
  Forall valid_slot mats ->
  export_surfaces h context mats st =
    (emit st
       [(SURFACES2,
         Packed (u32 (Z.of_nat (length mats))
                   ++ concat (map (surface_bytes h context)
                                (PySet.iter mat_id (slot h) mats))))] [],
     Ok tt).
Proof.
  intros Hv; unfold export_surfaces, lift, bind.
  rewrite surface_entries_bytes
    by (rewrite (iter_perm mat_id (slot h) mats); exact Hv).
  rewrite put_emit; reflexivity.
Qed.

(** C9.  The material set handed to the surfaces encoder holds exactly the
    distinct materials that sit in a non-empty slot of a visited mesh and
    whose name is among the names used by that mesh; the count written at
    the start of [SURFACES2] is the size of that set, one entry follows per
    element, and a material whose name no mesh uses is never emitted. *)
Theorem materials_collected (h : Host) (bpy_obj : Object) (context : Context)
    (st : St) :
  let mats := materials_set (collected bpy_obj) in
  (export_meshes h bpy_obj st).2 =
    Ok (mats, collected_bone_writers h (collected bpy_obj),
        chosen_armature h (collected bpy_obj), bpy_obj)
  /\ (forall m, In m mats ->
        exists me, attached bpy_obj m me /\ In (mat_name m) (used_material_names me))
  /\ (forall m me,
        attached bpy_obj m me -> In (mat_name m) (used_material_names me) ->
        exists m', In m' mats /\ mat_id m' = mat_id m)
  /\ List.NoDup (map mat_id mats)
  /\ (forall m,
        (forall m' me, attached bpy_obj m' me ->
                       ~ In (mat_name m) (used_material_names me)) ->
        ~ In m mats)
  /\ (Forall valid_slot mats ->
      export_surfaces h context mats st =
        (emit st
           [(SURFACES2,
             Packed (u32 (Z.of_nat (length mats))
                       ++ concat (map (surface_bytes h context)
                                    (PySet.iter mat_id (slot h) mats))))] [],
         Ok tt)
      /\ length (PySet.iter mat_id (slot h) mats) = length mats).
Proof.
  intros mats.
  assert (Hmats : mats = add_all mat_id (flat_map node_materials (visited bpy_obj)) [])
    by (subst mats; rewrite collected_spec; reflexivity).
  assert (Hin : forall m, In m mats ->
            exists me, attached bpy_obj m me /\ In (mat_name m) (used_material_names me)).
  { intros m Hm; rewrite Hmats in Hm.
    apply add_all_In in Hm as [[]|Hm].
    apply node_materials_In; exact Hm. }
  split; [rewrite export_meshes_emit; reflexivity|].
  split; [exact Hin|].
  split.
  { intros m me Ha Hu.
    apply mem_spec; rewrite Hmats; apply add_all_mem.
    apply node_materials_In; exists me; auto. }
  split; [rewrite Hmats; apply add_all_NoDup; constructor|].
  split.
  { intros m Hno Hm.
    destruct (Hin m Hm) as (me & Ha & Hu).
    exact (Hno m me Ha Hu). }
  intros Hv; split; [apply export_surfaces_emit; exact Hv|apply iter_length].
Qed.

Lemma materials_collected_witness :
  materials_set (collected SampleMesh.root) = [SampleMesh.mat_a; SampleMesh.mat_b]
  /\ ~ In SampleMesh.mat_c (materials_set (collected SampleMesh.root))
  /\ export_surfaces (Sample.host 0 SampleMesh.forward) Sample.context
       (materials_set (collected SampleMesh.root)) Sample.st0 =
     (emit Sample.st0
        [(SURFACES2,
          Packed (u32 2
                    ++ concat (map (surface_bytes (Sample.host 0 SampleMesh.forward)
                                      Sample.context)
                                 [SampleMesh.mat_a; SampleMesh.mat_b])))] [],
      Ok tt).
Proof.
  pose proof (materials_collected (Sample.host 0 SampleMesh.forward) SampleMesh.root
                Sample.context Sample.st0) as (_ & _ & _ & _ & Hno & Hs).
  split; [reflexivity|split].
  - apply Hno.
    intros m' me (o & Ho & Ek & _) Hu.
    destruct Ho as [<-|[]]; injection Ek as <-.
    simpl in Hu; destruct Hu as [Hu|[Hu|[]]]; discriminate Hu.
  - apply Hs.
    repeat constructor.
Defined.

(** When names identify the attached materials and a mesh uses names of its
    own materials only, a material is collected as soon as any visited mesh
    uses its name. *)
Lemma materials_collected_by_name (bpy_obj : Object) :
  (forall m1 me1 m2 me2,
      attached bpy_obj m1 me1 -> attached bpy_obj m2 me2 ->
      mat_name m1 = mat_name m2 -> mat_id m1 = mat_id m2) ->
  (forall o me n,
      In o (visited bpy_obj) -> kind o = KMesh me -> In n (used_material_names me) ->
      exists m, In (Some m) (materials me) /\ mat_name m = n) ->
  forall m me o' me',
    attached bpy_obj m me ->
    In o' (visited bpy_obj) -> kind o' = KMesh me' ->
    In (mat_name m) (used_material_names me') ->
    exists m', In m' (materials_set (collected bpy_obj)) /\ mat_id m' = mat_id m.
Proof.
  intros Huniq Hown m me o' me' Ha Ho' Ek' Hu.
  destruct (Hown o' me' _ Ho' Ek' Hu) as (m2 & Hs2 & En).
  assert (Ha2 : attached bpy_obj m2 me') by (exists o'; auto).
  assert (Hm2 : PySet.mem mat_id m2 (materials_set (collected bpy_obj)) = true).
  { rewrite collected_spec; simpl; apply add_all_mem.
    apply node_materials_In; exists me'; split; [exact Ha2|].
    rewrite En; exact Hu. }
  apply mem_spec in Hm2 as (m' & Hm' & Eid).
  exists m'; split; [exact Hm'|].
  rewrite Eid; apply (Huniq m2 me' m me Ha2 Ha En).
Qed.

(** *** The armature of the skeleton-wide sections *)

Lemma NoDup_ident_eq {A} (ident : A -> nat) (l : list A) (x y : A) :
  List.NoDup (map ident l) -> In x l -> In y l -> ident x = ident y -> x = y.
Proof.
  induction l as [|z r IH]; simpl; [tauto|].
  intros Hn Hx Hy E; inversion Hn as [|? ? Hz Hr]; subst.
  destruct Hx as [->|Hx], Hy as [->|Hy]; auto.
  - exfalso; apply Hz; rewrite E; apply in_map; exact Hy.
  - exfalso; apply Hz; rewrite <- E; apply in_map; exact Hx.
Qed.

Lemma add_all_head {A} (ident : A -> nat) (l : list A) (a : A) :
  head l = Some a -> In a (add_all ident l []).
Proof.
  destruct l as [|x r]; [discriminate|]; intros [= ->]; simpl.
  assert (H : forall s, In a s -> In a (add_all ident r s)).
  { induction r as [|y r IH]; intros s Hs; simpl; [exact Hs|].
    apply IH, add_incl; exact Hs. }
  apply H; left; reflexivity.
Qed.

(** C3 (as the code has it).  The armature handed to the skeleton-wide
    sections is the first in the iteration of the armature set.  It is one
    of the armatures the walk encountered, and there is none exactly when
    the walk encountered none.  With the collected armatures in table
    entries of their own, it is the one in the entry of least index; it is
    the first armature encountered when every other collected armature lies
    in a later entry, in particular when one armature only is collected. *)
Theorem chosen_armature_least (h : Host) (bpy_obj : Object) (st : St) :
  let sc := collected bpy_obj in
  let some_arm := chosen_armature h sc in
  (export_meshes h bpy_obj st).2 =
    Ok (materials_set sc, collected_bone_writers h sc, some_arm, bpy_obj)
  /\ (some_arm = None <-> encountered bpy_obj = [])
  /\ (forall a, some_arm = Some a -> In a (encountered bpy_obj))
  /\ (slots_distinct arm_id (slot h) (armatures sc) ->
      (forall a, some_arm = Some a ->
         forall b, In b (encountered bpy_obj) ->
           arm_id b = arm_id a \/ (slot h (arm_id a) < slot h (arm_id b))%nat)
      /\ (forall a, head (encountered bpy_obj) = Some a ->
            (forall b, In b (encountered bpy_obj) ->
               arm_id b = arm_id a \/ (slot h (arm_id a) < slot h (arm_id b))%nat) ->
            some_arm = Some a)).
Proof.
  intros sc some_arm.
  enough (Hall :
    (export_meshes h bpy_obj st).2 =
      Ok (materials_set sc, collected_bone_writers h sc, some_arm, bpy_obj)
    /\ (some_arm = None <-> encountered bpy_obj = [])
    /\ (forall a, some_arm = Some a ->
          In a (armatures sc) /\ In a (encountered bpy_obj)
          /\ forall b, In b (encountered bpy_obj) ->
               (slot h (arm_id a) <= slot h (arm_id b))%nat)
    /\ (forall a, head (encountered bpy_obj) = Some a ->
          (forall b, In b (encountered bpy_obj) ->
             arm_id b = arm_id a \/ (slot h (arm_id a) < slot h (arm_id b))%nat) ->
          some_arm = Some a)).
  { destruct Hall as (Hrun & Hnone & Hleast & Hfirst).
    split; [exact Hrun|split; [exact Hnone|split]].
    - intros a Ha; apply (Hleast a Ha).
    - intros Hd; split; [|exact Hfirst].
      intros a Ha b Hb.
      destruct (Hleast a Ha) as (Hset & _ & Hmin).
      destruct (Nat.eq_dec (arm_id b) (arm_id a)) as [E|Hne]; [left; exact E|right].
      assert (Hs : armatures sc = add_all arm_id (encountered bpy_obj) [])
        by (subst sc; rewrite collected_spec; reflexivity).
      pose proof (add_all_mem arm_id b _ [] Hb) as Hm.
      apply mem_spec in Hm as (b' & Hb' & E); rewrite <- Hs in Hb'.
      specialize (Hmin b Hb).
      destruct (Nat.eq_dec (slot h (arm_id a)) (slot h (arm_id b))) as [Es|Hs']; [|lia].
      exfalso; apply Hne; rewrite <- E; symmetry.
      apply (Hd a b' Hset Hb'); rewrite E; exact Es. }
  assert (Hs : armatures sc = add_all arm_id (encountered bpy_obj) [])
    by (subst sc; rewrite collected_spec; reflexivity).
  assert (Hleast : forall a, some_arm = Some a ->
            In a (armatures sc) /\ In a (encountered bpy_obj)
            /\ forall b, In b (encountered bpy_obj) ->
                 (slot h (arm_id a) <= slot h (arm_id b))%nat).
  { intros a Ha; unfold some_arm, chosen_armature in Ha.
    apply iter_head_least in Ha as [Hin Hmin].
    split; [exact Hin|]; rewrite Hs in Hin, Hmin.
    split.
    - apply add_all_In in Hin as [[]|Hin]; exact Hin.
    - intros b Hb.
      pose proof (add_all_mem arm_id b _ [] Hb) as Hm.
      apply mem_spec in Hm as (b' & Hb' & E).
      rewrite <- E; apply Hmin; exact Hb'. }
  assert (Hnone : some_arm = None <-> encountered bpy_obj = []).
  { unfold some_arm, chosen_armature.
    rewrite iter_head_none, Hs; apply add_all_nil. }
  split; [rewrite export_meshes_emit; reflexivity|].
  split; [exact Hnone|].
  split; [exact Hleast|].
  intros a Hhead Hfirst.
  destruct some_arm as [c|] eqn:Ec.
  - destruct (Hleast c eq_refl) as (_ & Hc & Hmin).
    assert (Ha : In a (encountered bpy_obj)).
    { destruct (encountered bpy_obj); [discriminate|].
      injection Hhead as ->; left; reflexivity. }
    specialize (Hmin a Ha).
    destruct (Hfirst c Hc) as [E|Hlt]; [|lia].
    f_equal.
    apply (NoDup_ident_eq arm_id (armatures sc)); [| | |exact E].
    + rewrite Hs; apply add_all_NoDup; constructor.
    + unfold chosen_armature in Ec.
      apply iter_head_least in Ec as [Hin _]; exact Hin.
    + rewrite Hs; apply add_all_head; exact Hhead.
  - destruct Hnone as [Hn _]; rewrite (Hn eq_refl) in Hhead; discriminate Hhead.
Qed.

Lemma chosen_armature_least_witness :
  chosen_armature (Sample.host 0 SampleMesh.forward) (collected SampleRig.root) =
    Some SampleRig.arm_a
  /\ (arm_id SampleRig.arm_a = arm_id SampleRig.arm_b
      \/ (slot (Sample.host 0 SampleMesh.backward) (arm_id SampleRig.arm_b)
            < slot (Sample.host 0 SampleMesh.backward) (arm_id SampleRig.arm_a))%nat).
Proof.
  assert (Hd : forall f : nat -> nat, f 1%nat <> f 2%nat ->
            slots_distinct arm_id f (armatures (collected SampleRig.root))).
  { intros f Hf a b [<-|[<-|[]]] [<-|[<-|[]]] E; try reflexivity;
      exfalso; apply Hf; [exact E|symmetry; exact E]. }
  pose proof (chosen_armature_least (Sample.host 0 SampleMesh.forward)
                SampleRig.root Sample.st0) as (_ & _ & _ & Hfirst).
  pose proof (chosen_armature_least (Sample.host 0 SampleMesh.backward)
                SampleRig.root Sample.st0) as (_ & _ & _ & Hleast).
  split.
  - apply (proj2 (Hfirst (Hd SampleMesh.forward ltac:(vm_compute; lia))));
      [reflexivity|].
    intros b [<-|[<-|[]]]; [left; reflexivity|right; vm_compute; lia].
  - apply (proj1 (Hleast (Hd SampleMesh.backward ltac:(vm_compute; lia)))
             SampleRig.arm_b eq_refl); left; reflexivity.
Defined.

(** C3, the claim as stated fails: of two armatures the walk collects, the
    second encountered is used when its table entry comes first. *)
Lemma chosen_armature_not_first :
  ~ (forall (h : Host) (bpy_obj : Object),
        (1 < length (armatures (collected bpy_obj)))%nat ->
        chosen_armature h (collected bpy_obj) = head (encountered bpy_obj)).
Proof.
  intros H.
  specialize (H (Sample.host 0 SampleMesh.backward) SampleRig.root).
  assert (Hl : (1 < length (armatures (collected SampleRig.root)))%nat)
    by (simpl; lia).
  specialize (H Hl).
  vm_compute in H; discriminate H.
Qed.

(** *** Bones that are not exportable *)

Lemma export_arm_bones_fold (bones : list Bone) ws (bm : gmap string nat) :
  let r := fold_left
             (fun st bone_ => if is_exportable bone_ then export_bone bone_ st else st)
             bones (ws, bm) in
  r.1 = ws ++ map bone_chunks (List.filter is_exportable bones)
  /\ forall n i, r.2 !! n = Some i ->
       bm !! n = Some i
       \/ exists b, In b bones /\ is_exportable b = true /\ bone_name b = n.
Proof.
  revert ws bm; induction bones as [|b r IH]; intros ws bm; simpl.
  - rewrite app_nil_r; split; [reflexivity|auto].
  - destruct (is_exportable b) eqn:E.
    + change (export_bone b (ws, bm))
        with (ws ++ [bone_chunks b], <[bone_name b:=length ws]> bm).
      destruct (IH (ws ++ [bone_chunks b]) (<[bone_name b:=length ws]> bm)) as [H1 H2].
      split.
      * rewrite H1; simpl; rewrite <- app_assoc; reflexivity.
      * intros n i Hn; apply H2 in Hn as [Hn|(b' & Hb' & He & Hname)].
        -- apply lookup_insert_Some in Hn as [[<- _]|[_ Hn]]; [|left; exact Hn].
           right; exists b; auto.
        -- right; exists b'; auto.
    + destruct (IH ws bm) as [H1 H2]; split; [exact H1|].
      intros n i Hn; apply H2 in Hn as [Hn|(b' & Hb' & He & Hname)]; [auto|].
      right; exists b'; auto.
Qed.

Lemma export_arm_bones_writers arm ws :
  (export_arm_bones arm ws).1 = ws ++ map bone_chunks (encoded_bones arm).
Proof. apply (export_arm_bones_fold (arm_bones arm) ws ∅). Qed.

Lemma export_arm_bones_map arm ws n i :
  (export_arm_bones arm ws).2 !! n = Some i ->
  exists b, In b (arm_bones arm) /\ is_exportable b = true /\ bone_name b = n.
Proof.
  intros Hn.
  apply (proj2 (export_arm_bones_fold (arm_bones arm) ws ∅)) in Hn as [Hn|Hn];
    [|exact Hn].
  rewrite lookup_empty in Hn; discriminate Hn.
Qed.

Lemma collected_bone_writers_spec h sc :
  collected_bone_writers h sc =
    flat_map (fun arm => map bone_chunks (encoded_bones arm))
      (PySet.iter arm_id (slot h) (armatures sc)).
Proof.
  unfold collected_bone_writers.
  generalize (PySet.iter arm_id (slot h) (armatures sc)) as arms.
  assert (H : forall arms ws,
    fold_left (fun bone_writers arm => (export_arm_bones arm bone_writers).1) arms ws =
      ws ++ flat_map (fun arm => map bone_chunks (encoded_bones arm)) arms).
  { induction arms as [|a r IH]; intros ws; simpl.
    - rewrite app_nil_r; reflexivity.
    - rewrite IH, export_arm_bones_writers, <- app_assoc; reflexivity. }
  intros arms; apply (H arms []).
Qed.

Lemma lookup_bone_Ok bones n b :
  lookup_bone bones n = Ok b -> In b bones /\ bone_name b = n.
Proof.
  induction bones as [|c r IH]; simpl; [discriminate|].
  destruct (String.eqb (bone_name c) n) eqn:E.
  - intros [= ->]; apply String.eqb_eq in E; auto.
  - intros H; apply IH in H as [H1 H2]; auto.
Qed.

Lemma lookup_bone_unique bones b :
  List.NoDup (map bone_name bones) -> In b bones ->
  lookup_bone bones (bone_name b) = Ok b.
Proof.
  induction bones as [|c r IH]; simpl; [tauto|].
  intros Hn Hb; inversion Hn as [|? ? Hc Hr]; subst.
  destruct Hb as [->|Hb]; [rewrite String.eqb_refl; reflexivity|].
  destruct (String.eqb (bone_name c) (bone_name b)) eqn:E; [|apply IH; assumption].
  apply String.eqb_eq in E; exfalso; apply Hc; rewrite E; apply in_map; exact Hb.
Qed.

Lemma exportable_bones_In bones pbs ex :
  exportable_bones bones pbs = Ok ex ->
  forall pb, In pb ex ->
    In pb pbs
    /\ exists b, lookup_bone bones (pbone_name pb) = Ok b /\ is_exportable b = true.
Proof.
  revert ex; induction pbs as [|p r IH]; intros ex; simpl.
  - intros [= <-] pb [].
  - destruct (lookup_bone bones (pbone_name p)) as [b|e] eqn:El; [|discriminate].
    simpl; destruct (exportable_bones bones r) as [ex'|e] eqn:Er; [|discriminate].
    simpl; intros [= <-] pb Hpb.
    destruct (is_exportable b) eqn:Eb.
    + destruct Hpb as [<-|Hpb].
      * split; [left; reflexivity|exists b; auto].
      * destruct (IH ex' eq_refl pb Hpb) as [H1 H2]; auto.
    + destruct (IH ex' eq_refl pb Hpb) as [H1 H2]; auto.
Qed.

Lemma non_empty_groups_In arm gs name bs n :
  non_empty_groups arm = Ok gs -> In (name, bs) gs -> In n bs ->
  exists pb b,
    In pb (pose_bones arm) /\ pbone_name pb = n
    /\ lookup_bone (arm_bones arm) n = Ok b /\ is_exportable b = true.
Proof.
  unfold non_empty_groups.
  destruct (exportable_bones (arm_bones arm) (pose_bones arm)) as [ex|e] eqn:Ex;
    [|discriminate].
  simpl; intros [= <-] Hg Hn.
  apply list_elem_of_In, list_elem_of_filter in Hg as [_ Hg].
  apply elem_of_lookup_imap in Hg as (i & gname & E & _).
  injection E as -> ->.
  unfold group_bones in Hn.
  apply in_map_iff in Hn as (pb & <- & Hpb).
  apply list_elem_of_In, list_elem_of_filter in Hpb as [_ Hpb].
  apply list_elem_of_In in Hpb.
  destruct (exportable_bones_In _ _ _ Ex pb Hpb) as (Hin & b & Hl & He).
  exists pb, b; auto.
Qed.

Lemma fold_partition_entry gs w :
  fold_left partition_entry gs w = w ++ concat (map group_bytes gs).
Proof.
  revert w; induction gs as [|[name bs] r IH]; intros w; simpl.
  - rewrite app_nil_r; reflexivity.
  - rewrite IH; unfold partition_entry, group_bytes; simpl.
    rewrite fold_puts.
    unfold PackedWriter.putf_I, PackedWriter.puts, cstr, u32.
    repeat rewrite <- app_assoc; reflexivity.
Qed.

Lemma export_partitions_emit arm gs st :
  non_empty_groups arm = Ok gs ->
  export_partitions (Some arm) st = (emit st (partitions_chunk gs) [], Ok tt).
Proof.
  intros Hg; unfold export_partitions.
  destruct (bone_groups arm) as [|g r] eqn:Eb.
  - unfold non_empty_groups in Hg; rewrite Eb in Hg.
    destruct (exportable_bones _ _); [|discriminate].
    simpl in Hg; injection Hg as <-.
    unfold ret; simpl; rewrite emit_nil; reflexivity.
  - unfold lift, bind; rewrite Hg.
    destruct gs as [|g1 gs1].
    + unfold ret; simpl; rewrite emit_nil; reflexivity.
    + rewrite put_emit, fold_partition_entry; reflexivity.
Qed.

Lemma export_partitions_raise arm e st :
  non_empty_groups arm = Raise e ->
  chunked_writer (export_partitions (Some arm) st).1 = chunked_writer st.
Proof.
  intros Hg; unfold export_partitions.
  destruct (bone_groups arm); [reflexivity|].
  unfold lift, bind; rewrite Hg; reflexivity.
Qed.

(** C7.  For every armature, the bones handed to the bone encoder, the
    entries of the bone map and the bones listed in the groups of
    [PARTITIONS1] are exportable bones only: the [BONES1] chunk holds the
    writers of the exportable bones of the collected armatures, a key of the
    bone map is the name of an exportable bone, and a name listed in a group
    is the name of a pose bone whose data bone is exportable.  A bone that is
    not exportable is in none of the three, whatever its pose group. *)
Theorem non_exportable_bones_skipped (h : Host) (bpy_obj : Object) (arm : ArmObj)
    (st : St) :
  let sc := collected bpy_obj in
  (collected_bone_writers h sc =
     flat_map (fun arm => map bone_chunks (encoded_bones arm))
       (PySet.iter arm_id (slot h) (armatures sc))
   /\ export_bones (collected_bone_writers h sc) st =
        (emit st (bones_chunk (collected_bone_writers h sc)) [], Ok tt))
  /\ (forall ws n i,
        (export_arm_bones arm ws).2 !! n = Some i ->
        exists b, In b (arm_bones arm) /\ is_exportable b = true /\ bone_name b = n)
  /\ (forall gs, non_empty_groups arm = Ok gs ->
        export_partitions (Some arm) st = (emit st (partitions_chunk gs) [], Ok tt)
        /\ forall name bs n, In (name, bs) gs -> In n bs ->
             exists b, lookup_bone (arm_bones arm) n = Ok b /\ is_exportable b = true)
  /\ (forall e, non_empty_groups arm = Raise e ->
        chunked_writer (export_partitions (Some arm) st).1 = chunked_writer st)
  /\ (forall b,
        In b (arm_bones arm) -> is_exportable b = false ->
        ~ In b (encoded_bones arm)
        /\ (List.NoDup (map bone_name (arm_bones arm)) ->
            (forall ws, (export_arm_bones arm ws).2 !! bone_name b = None)
            /\ (forall gs name bs,
                  non_empty_groups arm = Ok gs -> In (name, bs) gs ->
                  ~ In (bone_name b) bs))).
Proof.
  intros sc.
  split; [split; [apply collected_bone_writers_spec|apply export_bones_emit]|].
  split; [intros ws n i; apply export_arm_bones_map|].
  split.
  { intros gs Hg; split; [apply export_partitions_emit; exact Hg|].
    intros name bs n Hin Hn.
    destruct (non_empty_groups_In arm gs name bs n Hg Hin Hn)
      as (pb & b & _ & _ & Hl & He).
    exists b; auto. }
  split; [intros e; apply export_partitions_raise|].
  intros b Hb Hne; split.
  { unfold encoded_bones; rewrite filter_In; intros [_ He]; congruence. }
  intros Hnd; split.
  - intros ws.
    destruct ((export_arm_bones arm ws).2 !! bone_name b) as [i|] eqn:E; [|reflexivity].
    apply export_arm_bones_map in E as (b' & Hb' & He & Hname).
    assert (b' = b).
    { pose proof (lookup_bone_unique _ b Hnd Hb) as L1.
      pose proof (lookup_bone_unique _ b' Hnd Hb') as L2.
      rewrite Hname in L2; congruence. }
    congruence.
  - intros gs name bs Hg Hin Hn.
    destruct (non_empty_groups_In arm gs name bs _ Hg Hin Hn)
      as (pb & b' & _ & _ & Hl & He).
    rewrite (lookup_bone_unique _ b Hnd Hb) in Hl; congruence.
Qed.

Lemma non_exportable_bones_skipped_witness :
  non_empty_groups SampleRig.arm_a = Ok [("body"%string, ["root"%string])]
  /\ (export_arm_bones SampleRig.arm_a []).2 !! "ik"%string = None
  /\ ~ In "ik"%string ["root"%string].
Proof.
  pose proof (non_exportable_bones_skipped (Sample.host 0 SampleMesh.forward)
                SampleRig.root SampleRig.arm_a Sample.st0)
    as (_ & _ & _ & _ & Hskip).
  destruct (Hskip (SampleRig.bone "ik" false)) as [_ Hnames].
  { right; left; reflexivity. }
  { reflexivity. }
  destruct Hnames as [Hmap Hgroups].
  { repeat constructor; simpl; intros H;
      repeat (destruct H as [H|H]; [discriminate H|]); exact H. }
  split; [reflexivity|split].
  - apply Hmap.
  - apply (Hgroups [("body"%string, ["root"%string])] "body"%string ["root"%string]).
    + reflexivity.
    + left; reflexivity.
Defined.

(** *** Two runs of the export *)

Lemma same_order_small {A} (ident : A -> nat) slot1 slot2 (s : list A) :
  (length s <= 1)%nat -> same_order ident slot1 slot2 s.
Proof.
  destruct s as [|x [|y r]]; simpl; intros Hl a b Ha Hb; try lia.
  - destruct Ha.
  - destruct Ha as [<-|[]], Hb as [<-|[]].
    rewrite !Nat.leb_refl; reflexivity.
Qed.

Lemma surface_entries_host h1 h2 context ms :
  gen_texture_name h1 = gen_texture_name h2 ->
  forall sfw, surface_entries h1 context ms sfw = surface_entries h2 context ms sfw.
Proof.
  intros Hg; induction ms as [|m r IH]; intros sfw; simpl; [reflexivity|].
  assert (E : surface_entry h1 context m sfw = surface_entry h2 context m sfw)
    by (unfold surface_entry; rewrite Hg; reflexivity).
  rewrite E; destruct (surface_entry h2 context m sfw); simpl; [apply IH|reflexivity].
Qed.

(** C1 (as the code has it).  For a fixed scene, configuration, user and
    clock, two runs of [export_main] leave the same chunks, warnings and
    result whenever, in both runs, the collected armatures and the collected
    materials lie in table entries of their own and the entries come in the
    same order in the one run as in the other; so they do when at most one
    armature and at most one material are collected.  The order of the
    entries of [SURFACES2] and the armature of the skeleton-wide sections
    follow the table entries. *)
Theorem export_main_same_order (h1 h2 : Host) (bpy_obj : Object)
    (context : Context) (st : St) :
  same_inputs h1 h2 ->
  let sc := collected bpy_obj in
  (slots_distinct arm_id (slot h1) (armatures sc) ->
   slots_distinct arm_id (slot h2) (armatures sc) ->
   slots_distinct mat_id (slot h1) (materials_set sc) ->
   slots_distinct mat_id (slot h2) (materials_set sc) ->
   same_order arm_id (slot h1) (slot h2) (armatures sc) ->
   same_order mat_id (slot h1) (slot h2) (materials_set sc) ->
   export_main h1 bpy_obj context st = export_main h2 bpy_obj context st
   /\ forall code : ChunkId -> Z,
        output_bytes code (export_main h1 bpy_obj context st) =
          output_bytes code (export_main h2 bpy_obj context st))
  /\ ((length (armatures sc) <= 1)%nat -> (length (materials_set sc) <= 1)%nat ->
      export_main h1 bpy_obj context st = export_main h2 bpy_obj context st).
Proof.
  intros Hin sc.
  assert (Hmain :
    same_order arm_id (slot h1) (slot h2) (armatures sc) ->
    same_order mat_id (slot h1) (slot h2) (materials_set sc) ->
    export_main h1 bpy_obj context st = export_main h2 bpy_obj context st).
  { intros Ha Hm.
    destruct h1 as [n1 u1 t1 a1 md1 g1 ne1 te1 s1], h2 as [n2 u2 t2 a2 md2 g2 ne2 te2 s2].
    unfold same_inputs in Hin; simpl in Hin, Ha, Hm.
    destruct Hin as (-> & -> & -> & -> & -> & -> & -> & ->).
    rewrite !export_main_head; cbv zeta.
    unfold collected_bone_writers, chosen_armature; fold sc.
    cbn [slot].
    rewrite (iter_same_order arm_id s1 s2 (armatures sc) Ha).
    rewrite (iter_same_order mat_id s1 s2 (materials_set sc) Hm).
    rewrite (surface_entries_host (mkHost n2 u2 t2 a2 md2 g2 ne2 te2 s1)
               (mkHost n2 u2 t2 a2 md2 g2 ne2 te2 s2) context _ eq_refl).
    reflexivity. }
  split.
  - intros _ _ _ _ Ha Hm; split; [exact (Hmain Ha Hm)|].
    intros code; rewrite (Hmain Ha Hm); reflexivity.
  - intros Hla Hlm; apply Hmain; apply same_order_small; assumption.
Qed.

Lemma export_main_same_order_witness :
  export_main (Sample.host 5 SampleMesh.forward) SampleRig.root Sample.context
      Sample.st0 =
    export_main (Sample.host 5 (fun i => (2 * i)%nat)) SampleRig.root Sample.context
      Sample.st0.
Proof.
  refine (proj1 (proj1 (export_main_same_order (Sample.host 5 SampleMesh.forward)
                  (Sample.host 5 (fun i => (2 * i)%nat)) SampleRig.root
                  Sample.context Sample.st0
                  (conj eq_refl (conj eq_refl (conj eq_refl (conj eq_refl
                     (conj eq_refl (conj eq_refl (conj eq_refl eq_refl))))))))
            _ _ _ _ _ _)).
  - intros a b [<-|[<-|[]]] [<-|[<-|[]]] E; try reflexivity; vm_compute in E; lia.
  - intros a b [<-|[<-|[]]] [<-|[<-|[]]] E; try reflexivity; vm_compute in E; lia.
  - intros a b [].
  - intros a b [].
  - intros a b [<-|[<-|[]]] [<-|[<-|[]]]; reflexivity.
  - intros a b [].
Defined.

Lemma cons_tail_eq {A} (a b : A) (l r : list A) : a :: l = b :: r -> l = r.
Proof. intros H; injection H; auto. Qed.

(** C1, the claim as stated fails: whatever the numbering of the chunk
    identifiers, the same scene, configuration, user and clock give different
    bytes under two placements of the materials in memory. *)
Lemma export_main_not_deterministic :
  ~ (exists code : ChunkId -> Z,
      forall (h1 h2 : Host) (bpy_obj : Object) (context : Context) (st : St),
        same_inputs h1 h2 ->
        output_bytes code (export_main h1 bpy_obj context st) =
          output_bytes code (export_main h2 bpy_obj context st)).
Proof.
  intros [code H].
  specialize (H (Sample.host 5 SampleMesh.forward)
                (Sample.host 5 SampleMesh.backward) SampleMesh.root Sample.context
                Sample.st0).
  assert (Hin : same_inputs (Sample.host 5 SampleMesh.forward)
                  (Sample.host 5 SampleMesh.backward))
    by (repeat split).
  specialize (H Hin).
  vm_compute in H.
  repeat (first [discriminate H | apply cons_tail_eq in H]).
Qed.

(** *** The empty object *)

Lemma collected_no_mesh (o : Object) :
  (forall n, In n (visited o) -> kind n = KOther) -> collected o = mkScan [] [] [].
Proof.
  intros Hk; rewrite collected_spec; unfold encountered.
  assert (H : forall l, (forall n, In n l -> kind n = KOther) ->
            flat_map node_writers l = [] /\ flat_map node_armatures l = []
            /\ flat_map node_materials l = []).
  { induction l as [|n r IH]; intros Hl; simpl; [auto|].
    destruct IH as (-> & -> & ->); [intros n' Hn'; apply Hl; right; exact Hn'|].
    unfold node_writers, node_armatures, node_materials.
    rewrite (Hl n (or_introl eq_refl)); auto. }
  destruct (H _ Hk) as (-> & -> & ->); reflexivity.
Qed.

(** C5.  For an object whose walk meets no mesh and no armature, with
    empty user data, no LOD reference, no motion references, the identity
    as world matrix and a never-set revision, [export_main] writes exactly
    [VERSION], [FLAGS], [MESHES] (an empty nested container), [SURFACES2]
    (count 0) and [REVISION], in that order, and returns. *)
Theorem export_main_empty (h : Host) (bpy_obj : Object) (context : Context)
    (st : St) (x : XRayObject) :
  (forall o, In o (visited bpy_obj) -> kind o = KOther) ->
  xray bpy_obj = Some x ->
  userdata x = EmptyString ->
  lodref x = EmptyString ->
  motionrefs_collection x = [] ->
  motionrefs x = EmptyString ->
  revision x = mkRevision EmptyString 0 ->
  matrix_world bpy_obj = Identity4 ->
  matrix_ne h Identity4 Identity4 = false ->
  export_main h bpy_obj context st =
    (emit st
       [(VERSION, Packed [x10; x00]);
        (FLAGS, Packed (u32 (flags x)));
        (MESHES, Chunked []);
        (SURFACES2, Packed (u32 0));
        (REVISION,
         Packed (cstr (curruser h) ++ u32 (now h) ++ cstr EmptyString ++ u32 0))]
       [],
     Ok tt).
Proof.
  intros Hp Hx Hud Hlod Hrc Hr Hrev Hm Hne.
  rewrite export_main_head; cbv zeta.
  rewrite (collected_no_mesh _ Hp), Hx; simpl.
  unfold export_user_data, export_loddef, attr_of.
  erewrite bind_ok by (unfold bind, ret; rewrite Hud; reflexivity).
  erewrite bind_ok by (unfold bind, ret; rewrite Hlod; reflexivity).
  unfold chosen_armature; simpl.
  erewrite bind_ok by reflexivity.
  erewrite bind_ok by reflexivity.
  erewrite bind_ok
    by (unfold export_motion_refs, bind, attr_of, ret; rewrite Hrc, Hr; reflexivity).
  erewrite bind_ok
    by (unfold export_transform, ret; rewrite Hm, Hne; reflexivity).
  rewrite export_revision_writes, Hrev.
  unfold revision_record; simpl; rewrite emit_emit.
  reflexivity.
Qed.

Lemma export_main_empty_witness :
  export_main (Sample.host 1000 id)
      (SampleScene.empty_root (Some Sample.fresh_xray)) Sample.context Sample.st0 =
    (emit Sample.st0
       [(VERSION, Packed [x10; x00]);
        (FLAGS, Packed (u32 0));
        (MESHES, Chunked []);
        (SURFACES2, Packed (u32 0));
        (REVISION,
         Packed (cstr "\\pc\bob" ++ u32 1000 ++ cstr EmptyString ++ u32 0))]
       [],
     Ok tt).
Proof.
  apply (export_main_empty (Sample.host 1000 id)
           (SampleScene.empty_root (Some Sample.fresh_xray)) Sample.context
           Sample.st0 Sample.fresh_xray); try reflexivity.
  intros o [<-|[<-|[]]]; reflexivity.
Defined.

(** *** The order of the sections *)

Lemma appends_weaken {A} (m : M A) ids ids' n n' :
  appends m ids n -> ids `sublist_of` ids' -> (n <= n')%nat -> appends m ids' n'.
Proof.
  intros Hm Hs Hn st; destruct (Hm st) as (cs & ws & E & Hc & Hw).
  exists cs, ws; split; [exact E|split; [|lia]].
  etransitivity; eassumption.
Qed.

Lemma appends_ret {A} (a : A) : appends (ret a) [] 0.
Proof. intros st; exists [], []; rewrite emit_nil; repeat split; simpl; auto. Qed.

Lemma appends_raise {A} (e : Error) : appends (@raise A e) [] 0.
Proof. intros st; exists [], []; rewrite emit_nil; repeat split; simpl; auto. Qed.

Lemma appends_lift {A} (o : outcome A) : appends (lift o) [] 0.
Proof. intros st; exists [], []; rewrite emit_nil; repeat split; simpl; auto. Qed.

Lemma appends_attr_of {A} x attr (get : XRayObject -> A) :
  appends (attr_of x attr get) [] 0.
Proof. destruct x; [apply appends_ret|apply appends_raise]. Qed.

Lemma appends_put cid p : appends (put cid p) [cid] 0.
Proof.
  intros st; exists [(cid, p)], []; rewrite put_emit; repeat split; simpl; auto.
Qed.

Lemma appends_warn m d : appends (warn m d) [] 1.
Proof.
  intros st; exists [], [(m, d)]; rewrite warn_emit; repeat split; simpl; auto.
Qed.

Lemma appends_bind {A B} (m : M A) (k : A -> M B) ids1 ids2 n1 n2 :
  appends m ids1 n1 -> (forall a, appends (k a) ids2 n2) ->
  appends (bind m k) (ids1 ++ ids2) (n1 + n2).
Proof.
  intros Hm Hk st; unfold bind.
  destruct (Hm st) as (cs1 & ws1 & E1 & Hc1 & Hw1).
  destruct (m st) as [st1 [a|e]]; simpl in E1; subst st1.
  - destruct (Hk a (emit st cs1 ws1)) as (cs2 & ws2 & E2 & Hc2 & Hw2).
    exists (cs1 ++ cs2), (ws1 ++ ws2); rewrite E2, emit_emit.
    split; [reflexivity|split].
    + rewrite map_app; apply sublist_app; assumption.
    + rewrite length_app; lia.
  - exists cs1, ws1; split; [reflexivity|split; [|lia]].
    apply sublist_inserts_r; exact Hc1.
Qed.

Lemma appends_optional (b : bool) cid p :
  appends (if b then put cid p else ret tt) [cid] 0.
Proof.
  destruct b; [apply appends_put|].
  eapply appends_weaken; [apply appends_ret|apply sublist_nil_l|lia].
Qed.

Lemma appends_export_meshes h o : appends (export_meshes h o) [MESHES] 0.
Proof.
  intros st; rewrite export_meshes_emit.
  eexists _, []; repeat split; simpl; auto.
Qed.

Lemma appends_export_surfaces h context mats :
  appends (export_surfaces h context mats) [SURFACES2] 0.
Proof.
  unfold export_surfaces.
  apply (appends_bind _ _ [] [SURFACES2] 0 0); [apply appends_lift|].
  intros sfw; apply appends_put.
Qed.

Lemma appends_export_bones ws : appends (export_bones ws) [BONES1] 0.
Proof.
  intros st; rewrite export_bones_emit.
  eexists _, []; repeat split; simpl; auto.
  destruct ws; simpl; [apply sublist_nil_l|reflexivity].
Qed.

Lemma appends_export_user_data x : appends (export_user_data x) [USERDATA] 0.
Proof.
  unfold export_user_data.
  apply (appends_bind _ _ [] [USERDATA] 0 0); [apply appends_attr_of|].
  intros ud; apply appends_optional.
Qed.

Lemma appends_export_loddef x : appends (export_loddef x) [LOD_REF] 0.
Proof.
  unfold export_loddef.
  apply (appends_bind _ _ [] [LOD_REF] 0 0); [apply appends_attr_of|].
  intros lr; apply appends_optional.
Qed.

Lemma appends_nothing {A} (m : M A) cid :
  appends m [] 0 -> appends m [cid] 0.
Proof. intros H; eapply appends_weaken; [exact H|apply sublist_nil_l|lia]. Qed.

Lemma appends_export_motions h some_arm context o :
  appends (export_motions h some_arm context o) [MOTIONS] 0.
Proof.
  unfold export_motions.
  destruct some_arm as [arm|]; [|apply appends_nothing, appends_ret].
  destruct (export_motions_flag context); [|apply appends_nothing, appends_ret].
  apply (appends_bind _ _ [] [MOTIONS] 0 0); [apply appends_attr_of|].
  intros names.
  apply (appends_bind _ _ [] [MOTIONS] 0 0); [apply appends_lift|].
  intros acts.
  destruct (motions_data h acts arm); [apply appends_nothing, appends_ret|apply appends_put].
Qed.

Lemma appends_export_partitions some_arm :
  appends (export_partitions some_arm) [PARTITIONS1] 0.
Proof.
  unfold export_partitions.
  destruct some_arm as [arm|]; [|apply appends_nothing, appends_ret].
  destruct (bone_groups arm); [apply appends_nothing, appends_ret|].
  apply (appends_bind _ _ [] [PARTITIONS1] 0 0); [apply appends_lift|].
  intros gs; destruct gs; [apply appends_nothing, appends_ret|apply appends_put].
Qed.

Lemma appends_export_motion_refs x context :
  exists refs, (refs = MOTION_REFS \/ refs = SMOTIONS3)
    /\ appends (export_motion_refs x context) [refs] 1.
Proof.
  exists (match x with
          | Some x' =>
              match motionrefs_collection x' with
              | [] => MOTION_REFS
              | _ => if soc_sgroups context then MOTION_REFS else SMOTIONS3
              end
          | None => MOTION_REFS
          end).
  split.
  { destruct x as [x|]; [|auto].
    destruct (motionrefs_collection x); [auto|].
    destruct (soc_sgroups context); auto. }
  intros st; unfold export_motion_refs, bind, attr_of, ret, raise.
  destruct x as [x|].
  2:{ exists [], []; rewrite emit_nil.
      split; [reflexivity|split; simpl; [apply sublist_nil_l|lia]]. }
  destruct (motionrefs_collection x) as [|r rs].
  - destruct (nonempty (motionrefs x)).
    + rewrite put_emit.
      eexists _, _; split; [reflexivity|split; simpl; [reflexivity|lia]].
    + exists [], []; rewrite emit_nil.
      split; [reflexivity|split; simpl; [apply sublist_nil_l|lia]].
  - destruct (nonempty (motionrefs x)), (soc_sgroups context);
      rewrite ?warn_emit, put_emit, ?emit_emit;
      (eexists _, _; split; [reflexivity|split; simpl; [reflexivity|lia]]).
Qed.

Lemma appends_export_transform h o : appends (export_transform h o) [TRANSFORM] 0.
Proof. unfold export_transform; apply appends_optional. Qed.

Lemma appends_export_revision h x : appends (export_revision h x) [REVISION] 0.
Proof.
  unfold export_revision.
  apply (appends_bind _ _ [] [REVISION] 0 0); [apply appends_attr_of|].
  intros rev; destruct (revision_record h rev) as [[[o1 t1] o2] t2]; apply appends_put.
Qed.

(** X1.  Whatever the scene and whether it returns or raises, [export_main]
    only appends to the writer it is given: the chunks it adds are, in this
    order and each at most once, among VERSION, FLAGS, MESHES, SURFACES2,
    BONES1, USERDATA, LOD_REF, MOTIONS, PARTITIONS1, the motion references
    (under one of MOTION_REFS and SMOTIONS3), TRANSFORM and REVISION; it
    adds at most one warning. *)
Theorem export_main_order (h : Host) (bpy_obj : Object) (context : Context) :
  exists refs, (refs = MOTION_REFS \/ refs = SMOTIONS3)
    /\ forall st, exists cs ws,
         (export_main h bpy_obj context st).1 = emit st cs ws
         /\ map fst cs `sublist_of` section_order refs
         /\ (length ws <= 1)%nat.
Proof.
  destruct (appends_export_motion_refs (xray bpy_obj) context) as (refs & Hr & Hrefs).
  exists refs; split; [exact Hr|].
  change (appends (export_main h bpy_obj context) (section_order refs) 1).
  unfold export_main; cbv zeta.
  apply (appends_bind _ _ [VERSION] _ 0 1); [apply appends_put|intros _].
  apply (appends_bind _ _ [FLAGS] _ 0 1); [apply appends_put|intros _].
  apply (appends_bind _ _ [MESHES] _ 0 1); [apply appends_export_meshes|].
  intros [[[mats bws] some_arm] root].
  apply (appends_bind _ _ [SURFACES2] _ 0 1); [apply appends_export_surfaces|intros _].
  apply (appends_bind _ _ [BONES1] _ 0 1); [apply appends_export_bones|intros _].
  apply (appends_bind _ _ [USERDATA] _ 0 1); [apply appends_export_user_data|intros _].
  apply (appends_bind _ _ [LOD_REF] _ 0 1); [apply appends_export_loddef|intros _].
  apply (appends_bind _ _ [MOTIONS] _ 0 1); [apply appends_export_motions|intros _].
  apply (appends_bind _ _ [PARTITIONS1] _ 0 1); [apply appends_export_partitions|intros _].
  apply (appends_bind _ _ [refs] _ 1 0); [exact Hrefs|intros _].
  apply (appends_bind _ _ [TRANSFORM] [REVISION] 0 0);
    [apply appends_export_transform|intros _].
  apply appends_export_revision.
Qed.

(** *** Surfaces that cannot be written *)

Lemma valid_slot_dec m : {valid_slot m} + {~ valid_slot m}.
Proof. unfold valid_slot; apply lt_dec. Qed.

Lemma surface_entries_raise h context ms :
  ~ Forall valid_slot ms ->
  forall sfw, surface_entries h context ms sfw = Raise IndexError.
Proof.
  induction ms as [|m r IH]; intros Hn sfw; [exfalso; apply Hn; constructor|].
  simpl; destruct (valid_slot_dec m) as [Hv|Hv].
  - rewrite (surface_entry_bytes h context m sfw _ (valid_slot_lookup m Hv)); simpl.
    apply IH; intros Hr; apply Hn; constructor; assumption.
  - rewrite surface_entry_raises; [reflexivity|].
    apply lookup_ge_None; unfold valid_slot in Hv; lia.
Qed.

(** X2.  [export_surfaces] writes its chunk when the active texture index of
    every material is within the texture slots of the material; as soon as
    one material has the index out of range it raises [IndexError] and
    leaves the writer as it was, no part of the chunk written. *)
Theorem export_surfaces_index_error (h : Host) (context : Context)
    (mats : list Material) (st : St) :
  (Forall valid_slot mats ->
   export_surfaces h context mats st =
     (emit st
        [(SURFACES2,
          Packed (u32 (Z.of_nat (length mats))
                    ++ concat (map (surface_bytes h context)
                                 (PySet.iter mat_id (slot h) mats))))] [],
      Ok tt))
  /\ (~ Forall valid_slot mats ->
      export_surfaces h context mats st = (st, Raise IndexError)).
Proof.
  split; [apply export_surfaces_emit|].
  intros Hn; unfold export_surfaces, lift, bind.
  rewrite surface_entries_raise; [reflexivity|].
  rewrite (iter_perm mat_id (slot h) mats); exact Hn.
Qed.

Lemma export_surfaces_index_error_witness :
  export_surfaces (Sample.host 0 id) Sample.context
      [SampleMesh.mat_a; SampleFailure.bad_index] Sample.st0 =
    (Sample.st0, Raise IndexError)
  /\ export_surfaces (Sample.host 0 id) Sample.context [SampleMesh.mat_a] Sample.st0 =
    (emit Sample.st0
       [(SURFACES2,
         Packed (u32 1 ++ surface_bytes (Sample.host 0 id) Sample.context
                             SampleMesh.mat_a ++ []))] [],
     Ok tt).
Proof.
  split.
  - apply (proj2 (export_surfaces_index_error (Sample.host 0 id) Sample.context
                    [SampleMesh.mat_a; SampleFailure.bad_index] Sample.st0)).
    intros H; inversion H as [|? ? _ H2]; subst.
    inversion H2 as [|? ? Hb _]; subst.
    unfold valid_slot in Hb; simpl in Hb; lia.
  - apply (proj1 (export_surfaces_index_error (Sample.host 0 id) Sample.context
                    [SampleMesh.mat_a] Sample.st0)).
    repeat constructor.
Defined.

(** *** Partitions: lookups and shape *)

Lemma lookup_bone_In bones b :
  In b bones -> exists b', lookup_bone bones (bone_name b) = Ok b'.
Proof.
  induction bones as [|c r IH]; simpl; [tauto|].
  intros Hb; destruct (String.eqb (bone_name c) (bone_name b)) eqn:E; [eauto|].
  destruct Hb as [->|Hb]; [|apply IH; exact Hb].
  rewrite String.eqb_refl in E; discriminate E.
Qed.

Lemma lookup_bone_Raise bones n e :
  lookup_bone bones n = Raise e ->
  e = KeyError n /\ forall b, In b bones -> bone_name b <> n.
Proof.
  induction bones as [|c r IH]; simpl.
  - intros [= <-]; split; [reflexivity|intros b []].
  - destruct (String.eqb (bone_name c) n) eqn:E; [discriminate|].
    intros H; destruct (IH H) as [-> Hr]; split; [reflexivity|].
    intros b [<-|Hb]; [apply String.eqb_neq; exact E|apply Hr; exact Hb].
Qed.

Lemma exportable_bones_Ok bones pbs :
  (forall pb, In pb pbs -> exists b, In b bones /\ bone_name b = pbone_name pb) ->
  exists ex, exportable_bones bones pbs = Ok ex.
Proof.
  induction pbs as [|p r IH]; intros H; simpl; [eauto|].
  destruct (H p (or_introl eq_refl)) as (b & Hb & En).
  destruct (lookup_bone_In bones b Hb) as (b' & El).
  rewrite En in El; rewrite El; simpl.
  destruct IH as (ex & Ex); [intros pb Hpb; apply H; right; exact Hpb|].
  rewrite Ex; simpl; eauto.
Qed.

Lemma exportable_bones_Raise bones pbs e :
  exportable_bones bones pbs = Raise e ->
  exists pb, In pb pbs /\ e = KeyError (pbone_name pb)
    /\ forall b, In b bones -> bone_name b <> pbone_name pb.
Proof.
  induction pbs as [|p r IH]; simpl; [discriminate|].
  destruct (lookup_bone bones (pbone_name p)) as [b|e'] eqn:El; simpl.
  - destruct (exportable_bones bones r) as [ex|e'']; simpl; [discriminate|].
    intros [= <-]; destruct (IH eq_refl) as (pb & Hpb & He & Hno).
    exists pb; auto.
  - intros [= <-]; apply lookup_bone_Raise in El as [-> Hno].
    exists p; auto.
Qed.

Lemma non_empty_groups_Ok arm :
  pose_bones_known arm <-> exists gs, non_empty_groups arm = Ok gs.
Proof.
  unfold non_empty_groups; split.
  - intros Hk; destruct (exportable_bones_Ok _ _ Hk) as (ex & Ex).
    rewrite Ex; simpl; eauto.
  - intros (gs & Hg) pb Hpb.
    destruct (exportable_bones (arm_bones arm) (pose_bones arm)) as [ex|e] eqn:Ex;
      [|discriminate].
    clear Hg gs; revert ex Ex; induction (pose_bones arm) as [|p r IH];
      [destruct Hpb|]; simpl; intros ex.
    destruct (lookup_bone (arm_bones arm) (pbone_name p)) as [b|e] eqn:El;
      [|discriminate]; simpl.
    destruct (exportable_bones (arm_bones arm) r) as [ex'|e]; [|discriminate].
    simpl; intros _.
    destruct Hpb as [<-|Hpb]; [|apply (IH Hpb ex' eq_refl)].
    apply lookup_bone_Ok in El as [Hb En]; eauto.
Qed.

(** X3.  With at least one bone group, [export_partitions] returns exactly
    when every pose bone of the armature has a data bone of its name; when
    one has none it raises [KeyError] with the name of such a pose bone and
    writes nothing.  With no bone group it returns without looking at the
    bones. *)
Theorem export_partitions_key_error (arm : ArmObj) (st : St) :
  (bone_groups arm = [] -> export_partitions (Some arm) st = (st, Ok tt))
  /\ (bone_groups arm <> [] ->
      (pose_bones_known arm <->
       exists st', export_partitions (Some arm) st = (st', Ok tt))
      /\ (~ pose_bones_known arm ->
          exists pb,
            In pb (pose_bones arm)
            /\ (forall b, In b (arm_bones arm) -> bone_name b <> pbone_name pb)
            /\ export_partitions (Some arm) st =
                 (st, Raise (KeyError (pbone_name pb))))).
Proof.
  split.
  { intros E; unfold export_partitions; rewrite E; reflexivity. }
  intros Hg.
  assert (Hrun : export_partitions (Some arm) st =
                 match non_empty_groups arm with
                 | Ok gs => (emit st (partitions_chunk gs) [], Ok tt)
                 | Raise e => (st, Raise e)
                 end).
  { destruct (non_empty_groups arm) as [gs|e] eqn:E.
    - apply export_partitions_emit; exact E.
    - unfold export_partitions.
      destruct (bone_groups arm); [congruence|].
      unfold lift, bind; rewrite E; reflexivity. }
  split; [split|].
  - intros Hk; apply non_empty_groups_Ok in Hk as (gs & E).
    rewrite Hrun, E; eauto.
  - intros (st' & E); rewrite Hrun in E.
    apply non_empty_groups_Ok.
    destruct (non_empty_groups arm) as [gs|e]; [eauto|discriminate].
  - intros Hn; rewrite Hrun.
    destruct (non_empty_groups arm) as [gs|e] eqn:E.
    { exfalso; apply Hn, non_empty_groups_Ok; eauto. }
    unfold non_empty_groups in E.
    destruct (exportable_bones (arm_bones arm) (pose_bones arm)) as [ex|e'] eqn:Ex;
      [discriminate|].
    simpl in E; injection E as <-.
    apply exportable_bones_Raise in Ex as (pb & Hpb & -> & Hno).
    exists pb; auto.
Qed.

Lemma export_partitions_key_error_witness :
  (exists pb,
     In pb (pose_bones SampleFailure.stray_pose)
     /\ (forall b, In b (arm_bones SampleFailure.stray_pose) ->
         bone_name b <> pbone_name pb)
     /\ export_partitions (Some SampleFailure.stray_pose) Sample.st0 =
          (Sample.st0, Raise (KeyError (pbone_name pb))))
  /\ exists st', export_partitions (Some SampleRig.arm_a) Sample.st0 = (st', Ok tt).
Proof.
  split.
  - apply (proj2 (proj2 (export_partitions_key_error SampleFailure.stray_pose
                           Sample.st0) ltac:(discriminate))).
    intros Hk.
    destruct (Hk (mkPoseBone "ghost" (Some 0%nat))) as (b & Hb & En).
    + right; left; reflexivity.
    + destruct Hb as [<-|[]]; discriminate En.
  - apply (proj1 (proj2 (export_partitions_key_error SampleRig.arm_a Sample.st0)
                    ltac:(discriminate))).
    intros pb [<-|[<-|[<-|[]]]].
    + exists (SampleRig.bone "root" true); split; [left|]; reflexivity.
    + exists (SampleRig.bone "ik" false); split; [right; left|]; reflexivity.
    + exists (SampleRig.bone "spine" true); split; [right; right; left|]; reflexivity.
Defined.

Lemma exportable_bones_sublist bones pbs ex :
  exportable_bones bones pbs = Ok ex -> ex `sublist_of` pbs.
Proof.
  revert ex; induction pbs as [|p r IH]; intros ex; simpl.
  - intros [= <-]; constructor.
  - destruct (lookup_bone bones (pbone_name p)) as [b|e]; [|discriminate]; simpl.
    destruct (exportable_bones bones r) as [ex'|e]; [|discriminate]; simpl.
    intros [= <-]; specialize (IH ex' eq_refl).
    destruct (is_exportable b); [apply sublist_skip|apply sublist_cons]; exact IH.
Qed.

Lemma map_fst_imap {A B} (f : nat -> A -> A * B) (l : list A) :
  (forall i x, (f i x).1 = x) -> map fst (imap f l) = l.
Proof.
  revert f; induction l as [|a r IH]; intros f Hf; [reflexivity|].
  rewrite imap_cons; simpl; rewrite Hf; f_equal.
  apply IH; intros i x; apply Hf.
Qed.

Lemma non_empty_groups_shape arm gs :
  non_empty_groups arm = Ok gs ->
  map fst gs `sublist_of` bone_groups arm
  /\ Forall (fun g => g.2 <> []) gs
  /\ Forall (fun g => g.2 `sublist_of` map pbone_name (pose_bones arm)) gs.
Proof.
  unfold non_empty_groups.
  destruct (exportable_bones (arm_bones arm) (pose_bones arm)) as [ex|e] eqn:Ex;
    [|discriminate].
  simpl; intros [= <-].
  set (all := imap (fun group name => (name, group_bones ex group)) (bone_groups arm)).
  assert (Hfst : map fst all = bone_groups arm)
    by (subst all; apply map_fst_imap; reflexivity).
  split; [|split].
  - rewrite <- Hfst; apply (fmap_sublist fst), sublist_filter.
  - apply Forall_forall; intros g Hg.
    apply list_elem_of_filter in Hg as [Hg _]; exact Hg.
  - apply Forall_forall; intros g Hg.
    apply list_elem_of_filter in Hg as [_ Hg].
    subst all; apply elem_of_lookup_imap in Hg as (i & name & -> & _); simpl.
    unfold group_bones; apply (fmap_sublist pbone_name).
    etransitivity; [apply sublist_filter|].
    eapply exportable_bones_sublist; exact Ex.
Qed.

(** X4.  The groups [export_partitions] writes keep the order of the bone
    groups of the pose, none of them is empty, and the bones of a group keep
    the order of the pose bones; the chunk starts with their number. *)
Theorem partitions_keep_order (arm : ArmObj) (gs : list (string * list string))
    (st : St) :
  non_empty_groups arm = Ok gs ->
  map fst gs `sublist_of` bone_groups arm
  /\ Forall (fun g => g.2 <> []) gs
  /\ Forall (fun g => g.2 `sublist_of` map pbone_name (pose_bones arm)) gs
  /\ export_partitions (Some arm) st =
       (emit st
          (match gs with
           | [] => []
           | _ => [(PARTITIONS1,
                    Packed (u32 (Z.of_nat (length gs))
                              ++ concat (map group_bytes gs)))]
           end) [],
        Ok tt).
Proof.
  intros Hg; destruct (non_empty_groups_shape arm gs Hg) as (H1 & H2 & H3).
  repeat split; try assumption.
  rewrite (export_partitions_emit arm gs st Hg); reflexivity.
Qed.

Lemma partitions_keep_order_witness :
  map fst [("body"%string, ["root"%string])]
    `sublist_of` bone_groups SampleRig.arm_a
  /\ export_partitions (Some SampleRig.arm_a) Sample.st0 =
       (emit Sample.st0
          [(PARTITIONS1,
            Packed (u32 1 ++ concat (map group_bytes
                                       [("body"%string, ["root"%string])])))] [],
        Ok tt).
Proof.
  destruct (partitions_keep_order SampleRig.arm_a [("body"%string, ["root"%string])]
              Sample.st0 eq_refl) as (H1 & _ & _ & H4).
  split; [exact H1|exact H4].
Defined.

(** *** An armature with no exportable bone *)

(** X5.  An armature all of whose bones are marked as not exportable gives
    no bone writer, leaves the bone map empty and, when its pose bones have
    their data bones, no PARTITIONS1 chunk, whatever groups the pose bones
    are in. *)
Theorem hidden_armature_writes_nothing (arm : ArmObj)
    (ws : list (list Chunk)) (st : St) :
  (forall b, In b (arm_bones arm) -> is_exportable b = false) ->
  export_arm_bones arm ws = (ws, ∅)
  /\ (pose_bones_known arm -> export_partitions (Some arm) st = (st, Ok tt)).
Proof.
  intros Hh; split.
  - unfold export_arm_bones.
    generalize (ws, ∅ : gmap string nat) as acc.
    induction (arm_bones arm) as [|b r IH]; intros acc; [reflexivity|].
    simpl; rewrite (Hh b (or_introl eq_refl)).
    apply IH; intros b' Hb'; apply Hh; right; exact Hb'.
  - intros Hk; apply non_empty_groups_Ok in Hk as (gs & Hg).
    rewrite (export_partitions_emit arm gs st Hg).
    destruct gs as [|[name bs] r]; [simpl; rewrite emit_nil; reflexivity|exfalso].
    destruct (non_empty_groups_shape arm _ Hg) as (_ & Hne & _).
    inversion Hne as [|? ? Hbs _]; subst; simpl in Hbs.
    destruct bs as [|n bs']; [congruence|].
    destruct (non_empty_groups_In arm _ name (n :: bs') n Hg)
      as (pb & b & _ & _ & Hl & He); [left; reflexivity..|].
    apply lookup_bone_Ok in Hl as [Hb _].
    rewrite (Hh b Hb) in He; discriminate He.
Qed.

Lemma hidden_armature_writes_nothing_witness :
  export_arm_bones SampleFailure.hidden [] = ([], ∅)
  /\ export_partitions (Some SampleFailure.hidden) Sample.st0 = (Sample.st0, Ok tt).
Proof.
  destruct (hidden_armature_writes_nothing SampleFailure.hidden [] Sample.st0)
    as [H1 H2].
  { intros b [<-|[<-|[]]]; reflexivity. }
  split; [exact H1|apply H2].
  intros pb [<-|[<-|[]]].
  - exists (SampleRig.bone "a" false); split; [left|]; reflexivity.
  - exists (SampleRig.bone "b" false); split; [right; left|]; reflexivity.
Defined.

(** *** Motions: the names handed to the motion encoder *)

Lemma ltb_Lt a b : String.ltb a b = true <-> String.compare a b = Lt.
Proof. unfold String.ltb; destruct (String.compare a b); split; congruence. Qed.

Lemma name_lt_irrefl a : ~ name_lt a a.
Proof.
  unfold name_lt; rewrite ltb_Lt; intros H.
  pose proof (String.compare_antisym a a) as E.
  rewrite H in E; discriminate E.
Qed.

Lemma name_lt_asym a b : name_lt a b -> ~ name_lt b a.
Proof.
  unfold name_lt; rewrite !ltb_Lt; intros H1 H2.
  rewrite String.compare_antisym, H2 in H1; discriminate H1.
Qed.

Lemma name_lt_trans a b c : name_lt a b -> name_lt b c -> name_lt a c.
Proof.
  intros H1 H2.
  assert (L1 : String.le a b)
    by (unfold String.le, String.leb; apply ltb_Lt in H1; rewrite H1; exact I).
  assert (L2 : String.le b c)
    by (unfold String.le, String.leb; apply ltb_Lt in H2; rewrite H2; exact I).
  assert (L3 : String.le a c) by (etransitivity; eassumption).
  unfold name_lt; apply ltb_Lt.
  unfold String.le, String.leb in L3.
  destruct (String.compare a c) eqn:E; [|reflexivity|destruct L3].
  apply String.compare_eq_iff in E; subst c.
  exfalso; exact (name_lt_asym a b H1 H2).
Qed.

Lemma name_lt_total a b : String.eqb a b = false -> String.ltb a b = false -> name_lt b a.
Proof.
  intros He Hl; unfold name_lt; apply ltb_Lt.
  rewrite String.compare_antisym.
  destruct (String.compare a b) eqn:E; [| |reflexivity].
  - apply String.compare_eq_iff in E; apply String.eqb_neq in He; contradiction.
  - apply ltb_Lt in E; congruence.
Qed.

Lemma insert_name_In x l z : In z (insert_name x l) <-> z = x \/ In z l.
Proof.
  induction l as [|y r IH]; simpl; [intuition congruence|].
  destruct (String.eqb x y) eqn:E.
  - apply String.eqb_eq in E; subst y; simpl; intuition congruence.
  - destruct (String.ltb x y); simpl; [intuition congruence|].
    rewrite IH; intuition congruence.
Qed.

Lemma insert_name_sorted x l :
  StronglySorted name_lt l -> StronglySorted name_lt (insert_name x l).
Proof.
  induction 1 as [|y r Hs IH Hy]; simpl; [repeat constructor|].
  destruct (String.eqb x y) eqn:E; [constructor; assumption|].
  destruct (String.ltb x y) eqn:L.
  - constructor; [constructor; assumption|].
    constructor; [exact L|].
    eapply Forall_impl; [exact Hy|].
    intros z Hz; eapply name_lt_trans; [exact L|exact Hz].
  - constructor; [exact IH|].
    apply Forall_forall; intros z Hz.
    apply list_elem_of_In, insert_name_In in Hz as [->|Hz].
    + apply name_lt_total; assumption.
    + rewrite List.Forall_forall in Hy; apply Hy; exact Hz.
Qed.

Lemma sorted_names_sorted l : StronglySorted name_lt (sorted_names l).
Proof.
  induction l as [|x r IH]; simpl; [constructor|apply insert_name_sorted; exact IH].
Qed.

Lemma sorted_names_In l z : In z (sorted_names l) <-> In z l.
Proof.
  induction l as [|x r IH]; simpl; [tauto|].
  rewrite insert_name_In, IH; intuition congruence.
Qed.

Lemma strictly_sorted_unique l1 l2 :
  StronglySorted name_lt l1 -> StronglySorted name_lt l2 ->
  (forall z, In z l1 <-> In z l2) -> l1 = l2.
Proof.
  intros H1; revert l2; induction H1 as [|a r1 Hs1 IH Ha]; intros l2 H2 Hin.
  - destruct l2 as [|b r2]; [reflexivity|].
    destruct (proj2 (Hin b) (or_introl eq_refl)).
  - destruct H2 as [|b r2 Hs2 Hb].
    { destruct (proj1 (Hin a) (or_introl eq_refl)). }
    rewrite List.Forall_forall in Ha, Hb.
    assert (E : a = b).
    { destruct (proj1 (Hin a) (or_introl eq_refl)) as [E|Har2]; [auto|].
      destruct (proj2 (Hin b) (or_introl eq_refl)) as [E|Hbr1]; [auto|].
      exfalso; exact (name_lt_asym a b (Ha b Hbr1) (Hb a Har2)). }
    subst b; f_equal; apply IH; [exact Hs2|].
    intros z; split; intros Hz.
    + destruct (proj1 (Hin z) (or_intror Hz)) as [<-|H]; [|exact H].
      exfalso; exact (name_lt_irrefl a (Ha a Hz)).
    + destruct (proj2 (Hin z) (or_intror Hz)) as [<-|H]; [|exact H].
      exfalso; exact (name_lt_irrefl a (Hb a Hz)).
Qed.

(** X6.  The names [export_motions] looks up are those of the motions of the
    object, each once, in strictly increasing order. *)
Theorem sorted_names_increasing (names : list string) :
  StronglySorted name_lt (sorted_names names)
  /\ List.NoDup (sorted_names names)
  /\ forall n, In n (sorted_names names) <-> In n names.
Proof.
  split; [apply sorted_names_sorted|split; [|apply sorted_names_In]].
  pose proof (sorted_names_sorted names) as Hs.
  induction Hs as [|a r Hs IH Ha]; constructor; [|exact IH].
  intros Hin; rewrite List.Forall_forall in Ha.
  exact (name_lt_irrefl a (Ha a Hin)).
Qed.

Lemma lookup_action_Ok reg n a : lookup_action reg n = Ok a -> In (n, a) reg.
Proof.
  induction reg as [|[m b] r IH]; simpl; [discriminate|].
  destruct (String.eqb m n) eqn:E.
  - intros [= ->]; apply String.eqb_eq in E; subst m; left; reflexivity.
  - intros H; right; apply IH; exact H.
Qed.

Lemma lookup_action_In reg n a : In (n, a) reg -> exists a', lookup_action reg n = Ok a'.
Proof.
  induction reg as [|[m b] r IH]; simpl; [tauto|].
  intros H; destruct (String.eqb m n) eqn:E; [eauto|].
  destruct H as [[= -> ->]|H]; [|apply IH; exact H].
  rewrite String.eqb_refl in E; discriminate E.
Qed.

Lemma lookup_action_Raise reg n e :
  lookup_action reg n = Raise e -> e = KeyError n /\ forall a, ~ In (n, a) reg.
Proof.
  induction reg as [|[m b] r IH]; simpl.
  - intros [= <-]; split; [reflexivity|intros a []].
  - destruct (String.eqb m n) eqn:E; [discriminate|].
    intros H; destruct (IH H) as [HE Hno]; split; [exact HE|].
    intros a [[= -> ->]|Ha]; [rewrite String.eqb_refl in E; discriminate E|].
    exact (Hno a Ha).
Qed.

Lemma lookup_all_Ok reg l :
  (forall n, In n l -> exists a, In (n, a) reg) ->
  exists acts, lookup_all (lookup_action reg) l = Ok acts
    /\ Forall2 (fun n a => In (n, a) reg) l acts.
Proof.
  induction l as [|n r IH]; intros H; simpl; [exists []; split; constructor|].
  destruct (H n (or_introl eq_refl)) as (a & Ha).
  destruct (lookup_action_In reg n a Ha) as (a' & El); rewrite El; simpl.
  destruct IH as (acts & Ea & Hf); [intros m Hm; apply H; right; exact Hm|].
  rewrite Ea; simpl; exists (a' :: acts); split; [reflexivity|].
  constructor; [apply lookup_action_Ok; exact El|exact Hf].
Qed.

Lemma lookup_all_Raise reg l e :
  lookup_all (lookup_action reg) l = Raise e ->
  exists n, In n l /\ e = KeyError n /\ forall a, ~ In (n, a) reg.
Proof.
  induction l as [|n r IH]; simpl; [discriminate|].
  destruct (lookup_action reg n) as [a|e'] eqn:El; simpl.
  - destruct (lookup_all (lookup_action reg) r) as [acts|e'']; simpl; [discriminate|].
    intros [= <-]; destruct (IH eq_refl) as (m & Hm & He & Hno).
    exists m; auto.
  - intros [= <-]; apply lookup_action_Raise in El as [-> Hno].
    exists n; auto.
Qed.

Lemma lookup_all_Ok_inv reg l acts :
  lookup_all (lookup_action reg) l = Ok acts ->
  Forall2 (fun n a => In (n, a) reg) l acts.
Proof.
  revert acts; induction l as [|n r IH]; simpl; intros acts.
  - intros [= <-]; constructor.
  - destruct (lookup_action reg n) as [a|e] eqn:El; [|discriminate]; simpl.
    destruct (lookup_all (lookup_action reg) r) as [acts'|e]; [|discriminate]; simpl.
    intros [= <-]; constructor; [apply lookup_action_Ok; exact El|apply IH; reflexivity].
Qed.

Lemma export_motions_run h arm context o x st :
  xray o = Some x -> export_motions_flag context = true ->
  export_motions h (Some arm) context o st =
    match lookup_all (lookup_action (actions h))
            (sorted_names (motions_collection x)) with
    | Ok acts => (emit st (motions_chunk (motions_data h acts arm)) [], Ok tt)
    | Raise e => (st, Raise e)
    end.
Proof.
  intros Hx Hf; unfold export_motions; rewrite Hf, Hx.
  unfold bind, attr_of, ret, lift.
  destruct (lookup_all _ _) as [acts|e]; [|reflexivity].
  unfold motions_chunk; destruct (motions_data h acts arm).
  - rewrite emit_nil; reflexivity.
  - apply put_emit.
Qed.

(** X7.  [export_motions] depends on the motions of the object through the
    set of their names only: two objects whose motion collections hold the
    same names, in any order and any number of times, give the same result. *)
Theorem export_motions_same_names (h : Host) (some_arm : option ArmObj)
    (context : Context) (o1 o2 : Object) (x1 x2 : XRayObject) (st : St) :
  xray o1 = Some x1 -> xray o2 = Some x2 ->
  (forall n, In n (motions_collection x1) <-> In n (motions_collection x2)) ->
  export_motions h some_arm context o1 st = export_motions h some_arm context o2 st.
Proof.
  intros H1 H2 Hn.
  destruct some_arm as [arm|]; [|reflexivity].
  destruct (export_motions_flag context) eqn:Hf;
    [|unfold export_motions; rewrite Hf; reflexivity].
  rewrite (export_motions_run h arm context o1 x1 st H1 Hf).
  rewrite (export_motions_run h arm context o2 x2 st H2 Hf).
  rewrite (strictly_sorted_unique (sorted_names (motions_collection x1))
             (sorted_names (motions_collection x2))); [reflexivity| | |].
  - apply sorted_names_sorted.
  - apply sorted_names_sorted.
  - intros z; rewrite !sorted_names_In; apply Hn.
Qed.

Lemma export_motions_same_names_witness :
  export_motions SampleMotions.host (Some SampleRig.arm_a) Sample.context
      (SampleMotions.with_motions ["run"; "idle"; "run"]%string) Sample.st0 =
    export_motions SampleMotions.host (Some SampleRig.arm_a) Sample.context
      (SampleMotions.with_motions ["idle"; "run"]%string) Sample.st0.
Proof.
  apply (export_motions_same_names SampleMotions.host (Some SampleRig.arm_a)
           Sample.context
           (SampleMotions.with_motions ["run"; "idle"; "run"]%string)
           (SampleMotions.with_motions ["idle"; "run"]%string)
           _ _ Sample.st0 eq_refl eq_refl).
  intros n; simpl; tauto.
Defined.

(** X8.  With an armature and motion export enabled, [export_motions] hands
    the motion encoder the registered actions of the sorted names and writes
    [MOTIONS] when the encoder wrote something; when a motion names an
    action that is not registered it raises [KeyError] with such a name and
    writes nothing. *)
Theorem export_motions_key_error (h : Host) (arm : ArmObj) (context : Context)
    (o : Object) (x : XRayObject) (st : St) :
  xray o = Some x -> export_motions_flag context = true ->
  ((forall n, In n (motions_collection x) -> registered h n) ->
   exists acts,
     Forall2 (fun n a => In (n, a) (actions h))
       (sorted_names (motions_collection x)) acts
     /\ export_motions h (Some arm) context o st =
          (emit st (motions_chunk (motions_data h acts arm)) [], Ok tt))
  /\ (~ (forall n, In n (motions_collection x) -> registered h n) ->
      exists n,
        In n (motions_collection x) /\ ~ registered h n
        /\ export_motions h (Some arm) context o st = (st, Raise (KeyError n))).
Proof.
  intros Hx Hf; rewrite (export_motions_run h arm context o x st Hx Hf).
  split.
  - intros Hr.
    destruct (lookup_all_Ok (actions h) (sorted_names (motions_collection x)))
      as (acts & Ea & Hf2).
    { intros n Hn; apply Hr, sorted_names_In; exact Hn. }
    rewrite Ea; eauto.
  - intros Hn.
    destruct (lookup_all _ _) as [acts|e] eqn:Ea.
    + exfalso; apply Hn; intros n Hin.
      apply lookup_all_Ok_inv in Ea.
      apply sorted_names_In in Hin.
      clear -Ea Hin; induction Ea as [|m a r acts' Hm _ IH]; [destruct Hin|].
      destruct Hin as [<-|Hin]; [exists a; exact Hm|apply IH; exact Hin].
    + apply lookup_all_Raise in Ea as (n & Hin & -> & Hno).
      exists n; split; [apply sorted_names_In; exact Hin|].
      split; [intros [a Ha]; exact (Hno a Ha)|reflexivity].
Qed.

Lemma export_motions_key_error_witness :
  (exists n,
     In n ["run"; "jump"]%string /\ ~ registered SampleMotions.host n
     /\ export_motions SampleMotions.host (Some SampleRig.arm_a) Sample.context
          (SampleMotions.with_motions ["run"; "jump"]%string) Sample.st0 =
        (Sample.st0, Raise (KeyError n)))
  /\ exists acts,
       Forall2 (fun n a => In (n, a) (actions SampleMotions.host))
         (sorted_names ["run"; "idle"]%string) acts
       /\ export_motions SampleMotions.host (Some SampleRig.arm_a) Sample.context
            (SampleMotions.with_motions ["run"; "idle"]%string) Sample.st0 =
          (emit Sample.st0
             (motions_chunk (motions_data SampleMotions.host acts SampleRig.arm_a)) [],
           Ok tt).
Proof.
  split.
  - apply (proj2 (export_motions_key_error SampleMotions.host SampleRig.arm_a
                    Sample.context
                    (SampleMotions.with_motions ["run"; "jump"]%string) _ Sample.st0
                    eq_refl eq_refl)).
    intros Hr; destruct (Hr "jump"%string) as (a & Ha); [right; left; reflexivity|].
    destruct Ha as [Ha|[Ha|[]]]; discriminate Ha.
  - apply (proj1 (export_motions_key_error SampleMotions.host SampleRig.arm_a
                    Sample.context
                    (SampleMotions.with_motions ["run"; "idle"]%string) _ Sample.st0
                    eq_refl eq_refl)).
    intros n [<-|[<-|[]]].
    + exists (mkAction "run"); left; reflexivity.
    + exists (mkAction "idle"); right; left; reflexivity.
Defined.

(** *** When the export completes *)

Lemma returns_iff_bind (m : M unit) (k : M unit) P Q :
  returns_iff m P -> returns_iff k Q -> returns_iff (bind m (fun _ => k)) (P /\ Q).
Proof.
  intros Hm Hk st; unfold completes, bind.
  destruct (m st) as [st1 [[]|e]] eqn:E.
  - split.
    + intros Hc; split; [apply (Hm st); exists st1; exact E|apply (Hk st1); exact Hc].
    + intros [_ HQ]; apply (Hk st1); exact HQ.
  - split.
    + intros (st' & H); discriminate H.
    + intros [HP _]; apply (Hm st) in HP as (st' & H); congruence.
Qed.

Lemma returns_iff_always (m : M unit) :
  (forall st, exists st', m st = (st', Ok tt)) -> returns_iff m True.
Proof. intros H st; split; [auto|intros _; apply H]. Qed.

Lemma returns_user_data x : returns_iff (export_user_data (Some x)) True.
Proof.
  apply returns_iff_always; intros st.
  unfold export_user_data, bind, attr_of, ret.
  destruct (nonempty (userdata x)); [rewrite put_emit|]; eauto.
Qed.

Lemma returns_loddef x : returns_iff (export_loddef (Some x)) True.
Proof.
  apply returns_iff_always; intros st.
  unfold export_loddef, bind, attr_of, ret.
  destruct (nonempty (lodref x)); [rewrite put_emit|]; eauto.
Qed.

Lemma returns_motion_refs x context :
  returns_iff (export_motion_refs (Some x) context) True.
Proof.
  apply returns_iff_always; intros st.
  unfold export_motion_refs, bind, attr_of, ret.
  destruct (motionrefs_collection x), (nonempty (motionrefs x)),
    (soc_sgroups context); rewrite ?warn_emit, ?put_emit; eauto.
Qed.

Lemma returns_transform h o : returns_iff (export_transform h o) True.
Proof.
  apply returns_iff_always; intros st; unfold export_transform, ret.
  destruct (matrix_ne h (matrix_world o) Identity4); [rewrite put_emit|]; eauto.
Qed.

Lemma returns_revision h x : returns_iff (export_revision h (Some x)) True.
Proof.
  apply returns_iff_always; intros st; rewrite export_revision_writes.
  destruct (revision_record h (revision x)) as [[[o1 t1] o2] t2]; eauto.
Qed.

Lemma returns_motions h some_arm context o x :
  xray o = Some x ->
  returns_iff (export_motions h some_arm context o) (motions_ready h context x some_arm).
Proof.
  intros Hx st; unfold completes, motions_ready.
  destruct some_arm as [arm|].
  2:{ split; [intros _ H; congruence|intros _; exists st; reflexivity]. }
  destruct (export_motions_flag context) eqn:Hf.
  2:{ split; [intros _ _ H; congruence|].
      intros _; exists st; unfold export_motions; rewrite Hf; reflexivity. }
  rewrite (export_motions_run h arm context o x st Hx Hf).
  destruct (lookup_all _ _) as [acts|e] eqn:Ea; split.
  - intros _ _ _ n Hin.
    apply lookup_all_Ok_inv in Ea; apply sorted_names_In in Hin.
    clear -Ea Hin; induction Ea as [|m a r acts' Hm _ IH]; [destruct Hin|].
    destruct Hin as [<-|Hin]; [exists a; exact Hm|apply IH; exact Hin].
  - eauto.
  - intros (st' & H); discriminate H.
  - intros Hr; exfalso.
    apply lookup_all_Raise in Ea as (n & Hin & _ & Hno).
    destruct (Hr ltac:(discriminate) eq_refl n) as (a & Ha);
      [apply sorted_names_In; exact Hin|].
    exact (Hno a Ha).
Qed.

Lemma returns_partitions some_arm :
  returns_iff (export_partitions some_arm) (partitions_ready some_arm).
Proof.
  intros st; unfold completes, partitions_ready.
  destruct some_arm as [arm|].
  2:{ split; [intros _ arm H; discriminate H|intros _; exists st; reflexivity]. }
  destruct (bone_groups arm) as [|g r] eqn:Eg.
  { split; [intros _ arm' [= <-] H; congruence|].
    intros _; exists st; unfold export_partitions; rewrite Eg; reflexivity. }
  split.
  - intros (st' & H) arm' [= <-] _.
    apply non_empty_groups_Ok.
    destruct (non_empty_groups arm) as [gs|e] eqn:E; [eauto|].
    unfold export_partitions in H; rewrite Eg in H.
    unfold lift, bind in H; rewrite E in H; discriminate H.
  - intros Hr.
    destruct (proj1 (non_empty_groups_Ok arm)) as (gs & E).
    { apply (Hr arm eq_refl); rewrite Eg; discriminate. }
    rewrite (export_partitions_emit arm gs st E); eauto.
Qed.

Lemma surface_entries_Ok_valid h context ms sfw sfw' :
  surface_entries h context ms sfw = Ok sfw' -> Forall valid_slot ms.
Proof.
  intros H.
  destruct (List.Forall_dec valid_slot valid_slot_dec ms) as [Hv|Hn];
    [apply Forall_forall; intros m Hm; rewrite List.Forall_forall in Hv;
     apply Hv, list_elem_of_In; exact Hm|].
  rewrite surface_entries_raise in H; [discriminate H|].
  intros Hv; apply Hn; apply List.Forall_forall; intros m Hm.
  rewrite Forall_forall in Hv; apply Hv, list_elem_of_In; exact Hm.
Qed.

(** X9.  [export_main] returns exactly when the root object has extension
    data, the active texture index of every collected material is within
    its slots, the actions of the motions are registered (when there is an
    armature and motion export is enabled) and every pose bone of the
    armature has its data bone (when the armature has bone groups).  In
    every other case it raises. *)
Theorem export_main_completes (h : Host) (bpy_obj : Object) (context : Context)
    (st : St) :
  let sc := collected bpy_obj in
  (exists st', export_main h bpy_obj context st = (st', Ok tt))
  <-> exists x,
        xray bpy_obj = Some x
        /\ Forall valid_slot (materials_set sc)
        /\ motions_ready h context x (chosen_armature h sc)
        /\ partitions_ready (chosen_armature h sc).
Proof.
  intros sc; rewrite export_main_head; cbv zeta; fold sc.
  destruct (xray bpy_obj) as [x|] eqn:Hx.
  2:{ split; [|intros (x & H & _); discriminate H].
      intros (st' & H).
      destruct (surface_entries _ _ _ _); [|discriminate H].
      rewrite (bind_raise _ _ _ _ _ (export_user_data_none _)) in H; discriminate H. }
  assert (Htail : returns_iff
            (let* _ := export_user_data (Some x) in
             let* _ := export_loddef (Some x) in
             let* _ := export_motions h (chosen_armature h sc) context bpy_obj in
             let* _ := export_partitions (chosen_armature h sc) in
             let* _ := export_motion_refs (Some x) context in
             let* _ := export_transform h bpy_obj in
             export_revision h (Some x))
            (True /\ True /\ motions_ready h context x (chosen_armature h sc)
             /\ partitions_ready (chosen_armature h sc) /\ True /\ True /\ True)).
  { apply returns_iff_bind; [apply returns_user_data|].
    apply returns_iff_bind; [apply returns_loddef|].
    apply returns_iff_bind; [apply returns_motions; exact Hx|].
    apply returns_iff_bind; [apply returns_partitions|].
    apply returns_iff_bind; [apply returns_motion_refs|].
    apply returns_iff_bind; [apply returns_transform|apply returns_revision]. }
  destruct (surface_entries _ _ _ _) as [sfw|e] eqn:Es.
  - apply surface_entries_Ok_valid in Es.
    rewrite (iter_perm mat_id (slot h) (materials_set sc)) in Es.
    split.
    + intros Hc; apply (Htail _) in Hc as (_ & _ & Hm & Hp & _); exists x; auto.
    + intros (x' & [= <-] & _ & Hm & Hp); apply (Htail _); repeat split; assumption.
  - split; [intros (st' & H); discriminate H|].
    intros (x' & _ & Hv & _); exfalso.
    rewrite surface_entries_bytes in Es; [discriminate Es|].
    rewrite (iter_perm mat_id (slot h) (materials_set sc)); exact Hv.
Qed.

Lemma export_main_completes_witness :
  exists st',
    export_main (Sample.host 0 id) SampleRig.root Sample.context Sample.st0 =
      (st', Ok tt).
Proof.
  apply (proj2 (export_main_completes (Sample.host 0 id) SampleRig.root
                  Sample.context Sample.st0)).
  exists Sample.fresh_xray; split; [reflexivity|split; [constructor|split]].
  - intros _ _ n [].
  - intros arm [= <-] _ pb [<-|[<-|[<-|[]]]].
    + exists (SampleRig.bone "root" true); split; [left|]; reflexivity.
    + exists (SampleRig.bone "ik" false); split; [right; left|]; reflexivity.
    + exists (SampleRig.bone "spine" true); split; [right; right; left|]; reflexivity.
Defined.

(** *** Motion references: the cases *)

(** X10.  For an object with extension data [export_motion_refs] always
    returns.  It writes a chunk exactly when the collection or the legacy
    string is set and gives a warning exactly when both are; the legacy
    string alone is written as it is under [MOTION_REFS], whatever
    [soc_sgroups]. *)
Theorem export_motion_refs_cases (x : XRayObject) (context : Context) (st : St) :
  exists cs ws,
    export_motion_refs (Some x) context st = (emit st cs ws, Ok tt)
    /\ (cs <> [] <-> motionrefs_collection x <> [] \/ motionrefs x <> EmptyString)
    /\ (ws <> [] <-> motionrefs_collection x <> [] /\ motionrefs x <> EmptyString)
    /\ (motionrefs_collection x = [] -> motionrefs x <> EmptyString ->
        cs = [(MOTION_REFS, Packed (cstr (motionrefs x)))]).
Proof.
  unfold export_motion_refs, bind, attr_of, ret.
  destruct (motionrefs_collection x) as [|r rs] eqn:Ec;
    destruct (nonempty (motionrefs x)) eqn:En;
    [apply nonempty_true in En|apply nonempty_false in En
    |apply nonempty_true in En|apply nonempty_false in En].
  - rewrite put_emit; eexists _, []; split; [reflexivity|].
    repeat split; intros; try discriminate; intuition (try discriminate; congruence).
  - exists [], []; rewrite emit_nil; split; [reflexivity|].
    repeat split; intros; try discriminate; intuition (try discriminate; congruence).
  - rewrite warn_emit.
    destruct (soc_sgroups context); rewrite put_emit, emit_emit;
      (eexists _, _; split; [reflexivity|]);
      repeat split; intros; try discriminate; intuition (try discriminate; congruence).
  - destruct (soc_sgroups context); rewrite put_emit;
      (eexists _, []; split; [reflexivity|]);
      repeat split; intros; try discriminate; intuition (try discriminate; congruence).
Qed.

(** *** The meshes and the armatures of the walk *)

Lemma indexed_ids (ws : list (list Chunk)) :
  map fst (indexed ws) = map Idx (seq 0 (length ws))
  /\ map snd (indexed ws) = map Chunked ws.
Proof.
  unfold indexed.
  assert (H : forall k,
            map fst (imap (fun idx w => (Idx (k + idx), Chunked w)) ws) =
              map Idx (seq k (length ws))
            /\ map snd (imap (fun idx w => (Idx (k + idx), Chunked w)) ws) =
              map Chunked ws).
  { induction ws as [|w r IH]; intros k; [split; reflexivity|].
    rewrite imap_cons; simpl; rewrite Nat.add_0_r.
    destruct (IH (S k)) as [H1 H2].
    rewrite <- H1, <- H2; split; f_equal; f_equal;
      apply imap_ext; intros i y _; simpl; do 2 f_equal; lia. }
  apply (H 0%nat).
Qed.

Lemma node_writers_meshes (l : list Object) :
  flat_map node_writers l =
    map mesh_chunks
      (flat_map (fun n => match kind n with KMesh m => [m] | _ => [] end) l).
Proof.
  induction l as [|n r IH]; [reflexivity|]; simpl.
  rewrite map_app, IH; unfold node_writers; destruct (kind n); reflexivity.
Qed.

(** X11.  [export_meshes] never raises and writes one chunk, [MESHES]: one
    sub-chunk per mesh the walk visits, in the order of the walk, numbered
    from 0. *)
Theorem export_meshes_walk_order (h : Host) (bpy_obj : Object) (st : St) :
  exists subs r,
    export_meshes h bpy_obj st = (emit st [(MESHES, Chunked subs)] [], Ok r)
    /\ map fst subs = map Idx (seq 0 (length (visited_meshes bpy_obj)))
    /\ map snd subs = map (fun m => Chunked (mesh_chunks m)) (visited_meshes bpy_obj).
Proof.
  rewrite export_meshes_emit; eexists _, _; split; [reflexivity|].
  destruct (indexed_ids (mesh_writers (collected bpy_obj))) as [H1 H2].
  rewrite H1, H2, collected_spec; simpl mesh_writers.
  rewrite node_writers_meshes; fold (visited_meshes bpy_obj).
  rewrite length_map, map_map; split; reflexivity.
Qed.

Lemma modifier_targets_In ms a :
  In a (modifier_targets ms) <-> In (ArmatureMod (Some a)) ms.
Proof.
  unfold modifier_targets; rewrite in_flat_map; split.
  - intros ([[a'|]|] & Hm & Ha); [|destruct Ha..].
    destruct Ha as [<-|[]]; exact Hm.
  - intros Hm; exists (ArmatureMod (Some a)); split; [exact Hm|left; reflexivity].
Qed.

Lemma encountered_In bpy_obj a :
  In a (encountered bpy_obj) <-> offered_armature bpy_obj a.
Proof.
  unfold encountered, offered_armature, node_armatures; rewrite in_flat_map; split.
  - intros (n & Hn & Ha); exists n; split; [exact Hn|].
    destruct (kind n) as [me|a'|]; [| |destruct Ha].
    + right; exists me; split; [reflexivity|apply modifier_targets_In; exact Ha].
    + destruct Ha as [<-|[]]; left; reflexivity.
  - intros (n & Hn & [Hk|(me & Hk & Hm)]); exists n; (split; [exact Hn|]); rewrite Hk.
    + left; reflexivity.
    + apply modifier_targets_In; exact Hm.
Qed.

(** X12.  The armature set holds exactly the armatures the walk offers: the
    visited objects of type armature and the targets of the armature
    modifiers of the visited meshes, each armature once however often it is
    offered. *)
Theorem armatures_collected (bpy_obj : Object) :
  let arms := armatures (collected bpy_obj) in
  (forall a, In a arms -> offered_armature bpy_obj a)
  /\ (forall a, offered_armature bpy_obj a ->
        exists a', In a' arms /\ arm_id a' = arm_id a)
  /\ List.NoDup (map arm_id arms).
Proof.
  intros arms.
  assert (Hs : arms = add_all arm_id (encountered bpy_obj) [])
    by (subst arms; rewrite collected_spec; reflexivity).
  split; [|split].
  - intros a Ha; rewrite Hs in Ha.
    apply add_all_In in Ha as [[]|Ha]; apply encountered_In; exact Ha.
  - intros a Ha; apply encountered_In in Ha.
    apply mem_spec; rewrite Hs; apply add_all_mem; exact Ha.
  - rewrite Hs; apply add_all_NoDup; constructor.
Qed.

Lemma armatures_collected_witness :
  armatures (collected SampleSkin.root) = [SampleRig.arm_a]
  /\ exists a', In a' (armatures (collected SampleSkin.root))
       /\ arm_id a' = arm_id SampleRig.arm_a.
Proof.
  split; [reflexivity|].
  apply (proj1 (proj2 (armatures_collected SampleSkin.root))).
  exists SampleSkin.root; split; [left; reflexivity|].
  right; exists SampleSkin.mesh; split; [reflexivity|].
  right; right; left; reflexivity.
Defined.

(** *** The bones chunk *)

Lemma flat_map_nil_iff {A B} (f : A -> list B) (l : list A) :
  flat_map f l = [] <-> forall x, In x l -> f x = [].
Proof.
  induction l as [|x r IH]; simpl; [split; [intros _ x []|reflexivity]|].
  split.
  - intros H; apply app_eq_nil in H as [H1 H2].
    intros y [<-|Hy]; [exact H1|apply IH; assumption].
  - intros H; rewrite (H x (or_introl eq_refl)); simpl.
    apply IH; intros y Hy; apply H; right; exact Hy.
Qed.

Lemma filter_all_false {A} (f : A -> bool) (l : list A) :
  (forall x, In x l -> f x = false) -> List.filter f l = [].
Proof.
  induction l as [|x r IH]; intros H; [reflexivity|]; simpl.
  rewrite (H x (or_introl eq_refl)); apply IH; intros y Hy; apply H; right; exact Hy.
Qed.

(** X13.  [BONES1] is left out exactly when no collected armature has an
    exportable bone.  When written it holds one sub-chunk per exportable
    bone of each collected armature, numbered from 0. *)
Theorem bones_written_iff (h : Host) (bpy_obj : Object) (st : St) :
  let sc := collected bpy_obj in
  let ws := collected_bone_writers h sc in
  (export_bones ws st = (st, Ok tt)
   <-> forall a, In a (armatures sc) ->
         forall b, In b (arm_bones a) -> is_exportable b = false)
  /\ (ws <> [] ->
      exists subs,
        export_bones ws st = (emit st [(BONES1, Chunked subs)] [], Ok tt)
        /\ map fst subs = map Idx (seq 0 (length ws))
        /\ map snd subs = map Chunked ws)
  /\ Permutation ws
       (flat_map (fun a => map bone_chunks (encoded_bones a)) (armatures sc)).
Proof.
  intros sc ws.
  assert (Hws : ws = flat_map (fun a => map bone_chunks (encoded_bones a))
                       (PySet.iter arm_id (slot h) (armatures sc)))
    by apply collected_bone_writers_spec.
  assert (Hnil : ws = [] <->
            forall a, In a (armatures sc) ->
              forall b, In b (arm_bones a) -> is_exportable b = false).
  { rewrite Hws, flat_map_nil_iff; split.
    - intros H a Ha b Hb.
      apply (proj2 (iter_In arm_id (slot h) a (armatures sc))) in Ha.
      specialize (H a Ha); apply map_eq_nil in H.
      destruct (is_exportable b) eqn:E; [|reflexivity].
      assert (Hin : In b (encoded_bones a))
        by (unfold encoded_bones; apply filter_In; auto).
      rewrite H in Hin; destruct Hin.
    - intros H a Ha; apply (proj1 (iter_In arm_id (slot h) a (armatures sc))) in Ha.
      unfold encoded_bones; rewrite (filter_all_false _ _ (H a Ha)); reflexivity. }
  split; [|split].
  - rewrite export_bones_emit, <- Hnil; unfold bones_chunk.
    destruct ws; split; intros H; try reflexivity; try discriminate.
    + rewrite emit_nil; reflexivity.
    + exfalso; injection H as H.
      apply (f_equal chunked_writer) in H; unfold emit in H; simpl in H.
      apply (f_equal (@length _)) in H; rewrite length_app in H; simpl in H; lia.
  - intros Hne; rewrite export_bones_emit; unfold bones_chunk.
    destruct ws as [|w r] eqn:E; [congruence|].
    eexists; split; [reflexivity|apply indexed_ids].
  - rewrite Hws.
    apply Permutation_flat_map, iter_perm.
Qed.

Lemma bones_written_iff_witness :
  export_bones
      (collected_bone_writers (Sample.host 0 id) (collected SampleRig.root))
      Sample.st0 <> (Sample.st0, Ok tt)
  /\ length (collected_bone_writers (Sample.host 0 id) (collected SampleRig.root)) = 4%nat.
Proof.
  pose proof (bones_written_iff (Sample.host 0 id) SampleRig.root Sample.st0)
    as (Hiff & _ & Hperm).
  split.
  - intros H.
    pose proof (proj1 Hiff H SampleRig.arm_a (or_introl eq_refl)
                  (SampleRig.bone "root" true) (or_introl eq_refl)) as H'.
    discriminate H'.
  - rewrite (Permutation_length Hperm); reflexivity.
Defined.

(** *** The hash order only permutes *)

Lemma surface_bytes_host h1 h2 context :
  gen_texture_name h1 = gen_texture_name h2 ->
  surface_bytes h1 context = surface_bytes h2 context.
Proof.
  intros Hg; unfold surface_bytes, texture_name_of; rewrite Hg; reflexivity.
Qed.

(** X14.  Two runs on the same scene that differ in the hash slots write the
    same [MESHES] chunk, the same bone sub-chunks up to their order and the
    same surface entries up to their order, and find an armature for the
    skeleton-wide sections in the one run exactly when they do in the
    other. *)
Theorem hash_order_permutes (h1 h2 : Host) (bpy_obj : Object) (context : Context)
    (st : St) :
  same_inputs h1 h2 ->
  let sc := collected bpy_obj in
  (export_meshes h1 bpy_obj st).1 = (export_meshes h2 bpy_obj st).1
  /\ Permutation (collected_bone_writers h1 sc) (collected_bone_writers h2 sc)
  /\ Permutation
       (map (surface_bytes h1 context)
          (PySet.iter mat_id (slot h1) (materials_set sc)))
       (map (surface_bytes h2 context)
          (PySet.iter mat_id (slot h2) (materials_set sc)))
  /\ (chosen_armature h1 sc = None <-> chosen_armature h2 sc = None).
Proof.
  intros (_ & _ & _ & _ & _ & Hg & _) sc.
  split; [rewrite !export_meshes_emit; reflexivity|].
  split; [|split].
  - rewrite !collected_bone_writers_spec.
    apply Permutation_flat_map.
    rewrite !iter_perm; reflexivity.
  - rewrite (surface_bytes_host h1 h2 context Hg).
    apply Permutation_map.
    rewrite !iter_perm; reflexivity.
  - unfold chosen_armature; rewrite !iter_head_none; reflexivity.
Qed.

Lemma hash_order_permutes_witness :
  Permutation
    (map (surface_bytes (Sample.host 5 SampleMesh.forward) Sample.context)
       (PySet.iter mat_id SampleMesh.forward (materials_set (collected SampleMesh.root))))
    (map (surface_bytes (Sample.host 5 SampleMesh.backward) Sample.context)
       (PySet.iter mat_id SampleMesh.backward (materials_set (collected SampleMesh.root)))).
Proof.
  apply (proj1 (proj2 (proj2
           (hash_order_permutes (Sample.host 5 SampleMesh.forward)
              (Sample.host 5 SampleMesh.backward) SampleMesh.root Sample.context
              Sample.st0
              (conj eq_refl (conj eq_refl (conj eq_refl (conj eq_refl
                 (conj eq_refl (conj eq_refl (conj eq_refl eq_refl))))))))))).
Defined.

(** *** User data *)

Lemma chars_app a b : chars (a +:+ b) = chars a ++ chars b.
Proof. unfold chars; induction a as [|c a IH]; simpl; [|rewrite IH]; reflexivity. Qed.

Lemma append_snoc cur c rest :
  (cur +:+ String c EmptyString) +:+ rest = cur +:+ String c rest.
Proof.
  induction cur as [|d cur IH]; [reflexivity|].
  change (String d ((cur +:+ String c EmptyString) +:+ rest) =
          String d (cur +:+ String c rest)).
  rewrite IH; reflexivity.
Qed.

Lemma append_empty s : s +:+ EmptyString = s.
Proof.
  induction s as [|c s IH]; [reflexivity|].
  change (String c (s +:+ EmptyString) = String c s); rewrite IH; reflexivity.
Qed.

Lemma linefeed_is_linebreak c :
  bool_decide (nat_of_ascii c = 10%nat) = true -> is_linebreak c = true.
Proof.
  intros H; apply bool_decide_eq_true in H.
  unfold is_linebreak; rewrite H; reflexivity.
Qed.

Lemma splitlines_from_chars s :
  forall cur after_cr,
  flat_map chars (splitlines_from s cur after_cr) =
    chars cur ++ List.filter (fun c => negb (is_linebreak c)) (chars s).
Proof.
  induction s as [|c rest IH]; intros cur after_cr; simpl.
  - destruct cur; simpl; rewrite ?app_nil_r; reflexivity.
  - destruct (after_cr && bool_decide (nat_of_ascii c = 10%nat)) eqn:E.
    + apply andb_true_iff in E as [_ E].
      rewrite (linefeed_is_linebreak c E); simpl; apply IH.
    + destruct (is_linebreak c) eqn:Eb; simpl.
      * rewrite IH; reflexivity.
      * rewrite IH, chars_app, <- app_assoc; reflexivity.
Qed.

Lemma splitlines_from_no_break s :
  forall cur after_cr,
  no_break cur -> Forall no_break (splitlines_from s cur after_cr).
Proof.
  induction s as [|c rest IH]; intros cur after_cr Hc; simpl.
  - destruct (nonempty cur); repeat constructor; exact Hc.
  - destruct (after_cr && bool_decide (nat_of_ascii c = 10%nat)); [apply IH; exact Hc|].
    destruct (is_linebreak c) eqn:Eb.
    + constructor; [exact Hc|apply IH; constructor].
    + apply IH; unfold no_break; rewrite chars_app.
      apply Forall_app; split; [exact Hc|repeat constructor; exact Eb].
Qed.

Lemma splitlines_from_single s :
  forall cur after_cr,
  no_break s ->
  splitlines_from s cur after_cr =
    if nonempty (cur +:+ s) then [cur +:+ s] else [].
Proof.
  induction s as [|c rest IH]; intros cur after_cr Hs; simpl.
  - rewrite append_empty; reflexivity.
  - unfold no_break in Hs; simpl in Hs.
    apply Forall_cons in Hs as [Hc Hr].
    assert (E : after_cr && bool_decide (nat_of_ascii c = 10%nat) = false).
    { destruct (bool_decide (nat_of_ascii c = 10%nat)) eqn:E;
        [|apply andb_false_r].
      apply linefeed_is_linebreak in E; congruence. }
    rewrite E, Hc, (IH _ false Hr), append_snoc; reflexivity.
Qed.

(** X15.  For user data of ASCII characters: [export_user_data] writes
    nothing when the user data is empty.  Otherwise it writes the lines of
    the user data joined by CR LF: every line is of ASCII characters and
    holds no line boundary, and the lines together hold the characters of
    the user data other than the line boundaries, in their order. *)
Theorem export_user_data_lines (x : XRayObject) (st : St) :
  ascii_text (userdata x) ->
  let lines := splitlines (userdata x) in
  (userdata x = EmptyString -> export_user_data (Some x) st = (st, Ok tt))
  /\ (userdata x <> EmptyString ->
      export_user_data (Some x) st =
        (emit st [(USERDATA, Packed (cstr (String.concat crlf lines)))] [], Ok tt))
  /\ Forall no_break lines
  /\ Forall ascii_text lines
  /\ flat_map chars lines =
       List.filter (fun c => negb (is_linebreak c)) (chars (userdata x)).
Proof.
  intros Hascii lines.
  assert (Hchars : flat_map chars lines =
            List.filter (fun c => negb (is_linebreak c)) (chars (userdata x)))
    by apply (splitlines_from_chars (userdata x) EmptyString false).
  assert (Hlines : Forall ascii_text lines).
  { apply Forall_forall; intros l Hl.
    apply Forall_forall; intros c Hc.
    assert (Hin : In c (flat_map chars lines))
      by (apply in_flat_map; exists l; split;
          [apply list_elem_of_In; exact Hl|apply list_elem_of_In; exact Hc]).
    rewrite Hchars in Hin; apply filter_In in Hin as [Hin _].
    unfold ascii_text in Hascii; rewrite Forall_forall in Hascii.
    apply Hascii, list_elem_of_In; exact Hin. }
  split; [|split; [|split; [|split; [exact Hlines|]]]].
  - intros E; unfold export_user_data, bind, attr_of, ret; rewrite E; reflexivity.
  - intros E; apply nonempty_true in E.
    unfold export_user_data, bind, attr_of, ret; rewrite E, put_emit; reflexivity.
  - apply splitlines_from_no_break; constructor.
  - apply (splitlines_from_chars (userdata x) EmptyString false).
Qed.

Lemma export_user_data_lines_witness :
  export_user_data (Some SampleUserData.two_lines) Sample.st0 =
    (emit Sample.st0 [(USERDATA, Packed (cstr ("a" +:+ crlf +:+ "b")))] [], Ok tt)
  /\ export_user_data (Some Sample.fresh_xray) Sample.st0 = (Sample.st0, Ok tt).
Proof.
  assert (Ha : ascii_text (userdata SampleUserData.two_lines))
    by (repeat constructor).
  pose proof (export_user_data_lines SampleUserData.two_lines Sample.st0 Ha)
    as (_ & H2 & _).
  pose proof (export_user_data_lines Sample.fresh_xray Sample.st0
                (List.Forall_nil _)) as (H1 & _).
  split; [apply H2; discriminate|apply H1; reflexivity].
Defined.

(** X16.  User data of ASCII characters that holds no line boundary is
    written as it is. *)
Theorem export_user_data_single_line (x : XRayObject) (st : St) :
  ascii_text (userdata x) ->
  userdata x <> EmptyString -> no_break (userdata x) ->
  export_user_data (Some x) st =
    (emit st [(USERDATA, Packed (cstr (userdata x)))] [], Ok tt).
Proof.
  intros _ Hne Hnb.
  unfold export_user_data, bind, attr_of, ret.
  rewrite (proj2 (nonempty_true _) Hne), put_emit.
  unfold splitlines; rewrite (splitlines_from_single _ EmptyString false Hnb).
  change (EmptyString +:+ userdata x) with (userdata x).
  rewrite (proj2 (nonempty_true _) Hne); reflexivity.
Qed.

Lemma export_user_data_single_line_witness :
  export_user_data (Some SampleUserData.one_line) Sample.st0 =
    (emit Sample.st0 [(USERDATA, Packed (cstr "key = value"))] [], Ok tt).
Proof.
  apply (export_user_data_single_line SampleUserData.one_line Sample.st0);
    [repeat constructor|discriminate|repeat constructor].
Defined.

(** *** Material properties *)

(** X17.  [initialize] sets up a material once: it changes nothing when the
    version is already set, and after it has set the version no later call
    changes anything.  It never touches the flags, the compiler shader and
    the game material, and a loaded material keeps its engine shader and
    gets the version -1. *)
Theorem initialize_once (self : XRayMaterial) (context : InitContext)
    (active_object : option string) :
  (mversion self <> 0 -> initialize self context active_object = self)
  /\ (forall context' active_object',
        mversion (initialize self context active_object) <> 0 ->
        initialize (initialize self context active_object) context' active_object' =
          initialize self context active_object)
  /\ initialize (initialize self context active_object) context active_object =
       initialize self context active_object
  /\ (mflags (initialize self context active_object) = mflags self
      /\ cshader (initialize self context active_object) = cshader self
      /\ gamemtl (initialize self context active_object) = gamemtl self)
  /\ (mversion self = 0 -> operation context = "LOADED"%string ->
      mversion (initialize self context active_object) = -1
      /\ eshader (initialize self context active_object) = eshader self).
Proof.
  assert (Hfix : forall s c a, mversion s <> 0 -> initialize s c a = s).
  { intros s c a Hv; unfold initialize.
    apply Z.eqb_neq in Hv; rewrite Hv; reflexivity. }
  split; [apply Hfix|].
  split; [intros c' a' Hv; apply Hfix; exact Hv|].
  split.
  { destruct self as [f e c g v]; unfold initialize.
    generalize (String.eqb (operation context) "LOADED") as isL.
    generalize (String.eqb (operation context) "CREATED") as isC.
    intros isC isL; cbn [mversion mflags eshader cshader gamemtl].
    destruct (v =? 0) eqn:Ev; [|cbn [mversion]; rewrite Ev; reflexivity].
    destruct isL; [reflexivity|].
    destruct isC; [|cbn [mversion]; rewrite Ev; reflexivity].
    destruct active_object as [t|];
      [generalize (String.eqb t "st") as isS; intros isS; destruct isS|];
      cbn [mversion mflags eshader cshader gamemtl];
      destruct (plugin_version_number context =? 0); reflexivity. }
  split.
  { unfold initialize.
    destruct (mversion self =? 0); [|auto].
    destruct (String.eqb (operation context) "LOADED"); [auto|].
    destruct (String.eqb (operation context) "CREATED"); [|auto].
    destruct active_object as [t|]; [destruct (String.eqb t "st")|]; auto. }
  intros Hv Hop; unfold initialize.
  rewrite Hv, Hop; simpl; auto.
Qed.

Lemma initialize_once_witness :
  initialize
      (initialize default_material (mkInitContext "CREATED" 5) (Some "st"%string))
      (mkInitContext "LOADED" 7) None =
    initialize default_material (mkInitContext "CREATED" 5) (Some "st"%string)
  /\ mversion (initialize default_material (mkInitContext "LOADED" 7) None) = -1.
Proof.
  pose proof (initialize_once default_material (mkInitContext "CREATED" 5)
                (Some "st"%string)) as (_ & Hlater & _).
  pose proof (initialize_once default_material (mkInitContext "LOADED" 7) None)
    as (_ & _ & _ & _ & Hloaded).
  split; [apply Hlater; discriminate|apply Hloaded; reflexivity].
Defined.

(** *** The axis swap *)

(** X18.  [pw_v3f] is its own inverse and keeps the first component. *)
Theorem pw_v3f_involutive (vec : Vec3) :
  pw_v3f (pw_v3f vec) = vec /\ (pw_v3f vec).1.1 = vec.1.1.
Proof. destruct vec as [[v0 v1] v2]; split; reflexivity. Qed.

(** *** The sections every export has *)

Lemma bind_ok_inv (m : M unit) (k : M unit) st st' :
  bind m (fun _ => k) st = (st', Ok tt) ->
  exists st1, m st = (st1, Ok tt) /\ k st1 = (st', Ok tt).
Proof.
  unfold bind; destruct (m st) as [st1 [[]|e]]; [eauto|discriminate].
Qed.

Lemma appends_ok (m : M unit) ids n st st1 :
  appends m ids n -> m st = (st1, Ok tt) ->
  exists cs ws, st1 = emit st cs ws /\ map fst cs `sublist_of` ids.
Proof.
  intros Ha E; destruct (Ha st) as (cs & ws & Es & Hs & _).
  rewrite E in Es; simpl in Es; eauto.
Qed.

(** X19.  When [export_main] returns, what it added to the writer starts
    with [VERSION], [FLAGS], [MESHES] and [SURFACES2], ends with [REVISION]
    and has only optional sections in between. *)
Theorem export_main_mandatory (h : Host) (bpy_obj : Object) (context : Context)
    (st st' : St) :
  export_main h bpy_obj context st = (st', Ok tt) ->
  exists f sfw mid rev,
    chunked_writer st' =
      chunked_writer st
        ++ [(VERSION, Packed [x10; x00]);
            (FLAGS, Packed (u32 f));
            (MESHES, Chunked (indexed (mesh_writers (collected bpy_obj))));
            (SURFACES2, Packed sfw)]
        ++ mid ++ [(REVISION, Packed rev)]
    /\ map fst mid `sublist_of`
         [BONES1; USERDATA; LOD_REF; MOTIONS; PARTITIONS1; MOTION_REFS; SMOTIONS3;
          TRANSFORM].
Proof.
  rewrite export_main_head; cbv zeta.
  destruct (surface_entries _ _ _ _) as [sfw|e]; [|discriminate].
  set (st0 := emit st _ []).
  intros H.
  apply bind_ok_inv in H as (st1 & E1 & H).
  apply bind_ok_inv in H as (st2 & E2 & H).
  apply bind_ok_inv in H as (st3 & E3 & H).
  apply bind_ok_inv in H as (st4 & E4 & H).
  apply bind_ok_inv in H as (st5 & E5 & H).
  apply bind_ok_inv in H as (st6 & E6 & H).
  apply (appends_ok _ _ _ _ _ (appends_export_user_data _)) in E1
    as (c1 & w1 & -> & S1).
  apply (appends_ok _ _ _ _ _ (appends_export_loddef _)) in E2
    as (c2 & w2 & -> & S2).
  apply (appends_ok _ _ _ _ _ (appends_export_motions _ _ _ _)) in E3
    as (c3 & w3 & -> & S3).
  apply (appends_ok _ _ _ _ _ (appends_export_partitions _)) in E4
    as (c4 & w4 & -> & S4).
  destruct (appends_export_motion_refs (xray bpy_obj) context) as (refs & Hr & Ha).
  apply (appends_ok _ _ _ _ _ Ha) in E5 as (c5 & w5 & -> & S5).
  apply (appends_ok _ _ _ _ _ (appends_export_transform _ _)) in E6
    as (c6 & w6 & -> & S6).
  destruct (xray bpy_obj) as [x|]; [|discriminate H].
  rewrite export_revision_writes in H.
  destruct (revision_record h (revision x)) as [[[o1 t1] o2] t2].
  injection H as <-.
  subst st0; rewrite !emit_emit.
  exists (flags x), sfw,
    (bones_chunk (collected_bone_writers h (collected bpy_obj))
       ++ c1 ++ c2 ++ c3 ++ c4 ++ c5 ++ c6),
    (cstr o1 ++ u32 t1 ++ cstr o2 ++ u32 t2).
  split.
  - unfold emit, head_chunks; cbn [chunked_writer].
    repeat rewrite <- app_assoc; reflexivity.
  - rewrite !map_app.
    change [BONES1; USERDATA; LOD_REF; MOTIONS; PARTITIONS1; MOTION_REFS; SMOTIONS3;
            TRANSFORM]
      with ([BONES1] ++ [USERDATA] ++ [LOD_REF] ++ [MOTIONS] ++ [PARTITIONS1]
              ++ [MOTION_REFS; SMOTIONS3] ++ [TRANSFORM]).
    repeat apply sublist_app; try assumption.
    + unfold bones_chunk; destruct (collected_bone_writers _ _); simpl;
        [apply sublist_nil_l|reflexivity].
    + etransitivity; [exact S5|].
      destruct Hr as [-> | ->]; [apply sublist_skip|apply sublist_cons, sublist_skip];
        apply sublist_nil_l.
Qed.

Lemma export_main_mandatory_witness :
  exists f sfw mid rev,
    chunked_writer
      (export_main (Sample.host 0 id) SampleRig.root Sample.context Sample.st0).1 =
      chunked_writer Sample.st0
        ++ [(VERSION, Packed [x10; x00]);
            (FLAGS, Packed (u32 f));
            (MESHES, Chunked (indexed (mesh_writers (collected SampleRig.root))));
            (SURFACES2, Packed sfw)]
        ++ mid ++ [(REVISION, Packed rev)]
    /\ map fst mid `sublist_of`
         [BONES1; USERDATA; LOD_REF; MOTIONS; PARTITIONS1; MOTION_REFS; SMOTIONS3;
          TRANSFORM].
Proof.
  apply (export_main_mandatory (Sample.host 0 id) SampleRig.root Sample.context
           Sample.st0).
  vm_compute; reflexivity.
Defined.
